(** * Mapnik [image_cast]: pixel-format conversion of raster buffers

    A shallow embedding of [src/image_cast.cpp]: the two visitors
    [detail::visitor_image_cast] and [detail::visitor_image_cast_so], the
    per-type entry points [image_cast<T>] and the run-time dispatcher
    [image_cast(image_any const&, image_dtype, double, double)].

    Unsigned pixel values are integers ([Z]); [float] and [double] are the
    IEEE 754 binary32 and binary64 formats of [SpecFloat], so every
    definition below computes. *)

From Stdlib Require Import ZArith Lia Bool String.
From Stdlib Require Import Floats.SpecFloat.
From stdpp Require Import base list.

(** ** Numeric types *)

(** The arithmetic types the translation unit instantiates its templates
    with: the four pixel types and [double], the type of the intermediate
    values of the rescaling visitor. *)
Inductive numeric_type : Type :=
  | uint8_t | uint16_t | uint32_t | float_t | double_t.

Definition value (t : numeric_type) : Type :=
  match t with
  | float_t | double_t => spec_float
  | _ => Z
  end.

Definition is_float (t : numeric_type) : bool :=
  match t with float_t | double_t => true | _ => false end.

(** Precision and exponent bound of a floating type (binary32 for [float],
    binary64 otherwise). *)
Definition prec (t : numeric_type) : Z :=
  match t with float_t => 24%Z | _ => 53%Z end.

Definition emax (t : numeric_type) : Z :=
  match t with float_t => 128%Z | _ => 1024%Z end.

Definition double : Type := spec_float.

(** The literals [0.0] and [1.0]. *)
Definition d_zero : double := S754_zero false.
Definition d_one : double := S754_finite false 4503599627370496 (-52).

Definition d_mul : double -> double -> double := SFmul 53 1024.
Definition d_add : double -> double -> double := SFadd 53 1024.
Definition d_sub : double -> double -> double := SFsub 53 1024.
Definition d_div : double -> double -> double := SFdiv 53 1024.
(** [a == b] on [double]: false when either side is a NaN, true on zeros of
    either sign. *)
Definition d_eq : double -> double -> bool := SFeqb.

(** [std::numeric_limits<unsigned T>::max()]. *)
Definition int_max (t : numeric_type) : Z :=
  match t with
  | uint8_t => 255%Z
  | uint16_t => 65535%Z
  | _ => 4294967295%Z
  end.

(** Largest finite value of a floating type: [(2^prec - 1) * 2^(emax - prec)]. *)
Definition float_max (t : numeric_type) : spec_float :=
  S754_finite false (Z.to_pos (2 ^ prec t - 1)) (emax t - prec t).

(** Smallest positive normal value of a floating type: [2^(emin + prec - 1)],
    which is [2^-126] for [float]. *)
Definition float_min_normal (t : numeric_type) : spec_float :=
  S754_finite false (Z.to_pos (2 ^ (prec t - 1))) (3 - emax t - prec t).

(** [std::numeric_limits<T>::max()]. *)
Definition limits_max (t : numeric_type) : value t :=
  match t return value t with
  | uint8_t => int_max uint8_t
  | uint16_t => int_max uint16_t
  | uint32_t => int_max uint32_t
  | float_t => float_max float_t
  | double_t => float_max double_t
  end.

(** [std::numeric_limits<T>::min()]: zero for the unsigned types and, as the
    C++ standard defines it, the smallest positive normal value for the
    floating types. *)
Definition limits_min (t : numeric_type) : value t :=
  match t return value t with
  | uint8_t | uint16_t | uint32_t => 0%Z
  | float_t => float_min_normal float_t
  | double_t => float_min_normal double_t
  end.

(** [std::numeric_limits<T>::lowest()]: the least finite value, what
    [boost::numeric::bounds<T>::lowest()] returns. *)
Definition limits_lowest (t : numeric_type) : value t :=
  match t return value t with
  | uint8_t | uint16_t | uint32_t => 0%Z
  | float_t => SFopp (float_max float_t)
  | double_t => SFopp (float_max double_t)
  end.

(** ** [boost::numeric_cast]

    Boost is a library the translation unit includes, not part of it. The
    definitions below follow the default policies of
    [boost::numeric::converter]: the range of the source is checked only
    when the destination cannot hold every value of the source type, a
    floating value is turned into an integer by [Trunc], and every other
    conversion is the built-in one. *)

(** What [numeric_cast<T>(s)] does: return a value, or throw one of the two
    overflow exceptions the visitors catch. *)
Inductive cast_result (A : Type) : Type :=
  | cast_value (a : A)
  | negative_overflow
  | positive_overflow.
Arguments cast_value {A} a.
Arguments negative_overflow {A}.
Arguments positive_overflow {A}.

(** Conversion of an integer to a floating type: round to nearest, ties to
    even. *)
Definition float_of_Z (t : numeric_type) (z : Z) : spec_float :=
  binary_normalize (prec t) (emax t) z 0 false.

(** Conversion between floating formats: exact when widening, round to
    nearest even when narrowing. *)
Definition float_convert (t : numeric_type) (f : spec_float) : spec_float :=
  match f with
  | S754_finite s m e => binary_round (prec t) (emax t) s m e
  | _ => f
  end.

(** [Trunc<S>::nearbyint] followed by the conversion to the integer type:
    the integer part of a finite value, rounded toward zero. *)
Definition float_trunc (f : spec_float) : Z :=
  match f with
  | S754_finite s m e =>
      let q := match e with
               | Zneg p => Z.shiftr (Zpos m) (Zpos p)
               | _ => Z.shiftl (Zpos m) e
               end in
      if s then Z.opp q else q
  | _ => 0%Z
  end.

(** An integer source: no range check unless the destination is a narrower
    integer type, where only the upper bound can be exceeded (the sources
    are unsigned). *)
Definition cast_of_int (S T : numeric_type) (s : Z) : cast_result (value T) :=
  match T return cast_result (value T) with
  | float_t => cast_value (float_of_Z float_t s)
  | double_t => cast_value (float_of_Z double_t s)
  | uint8_t =>
      if (int_max uint8_t <? int_max S)%Z && (int_max uint8_t <? s)%Z
      then positive_overflow else cast_value s
  | uint16_t =>
      if (int_max uint16_t <? int_max S)%Z && (int_max uint16_t <? s)%Z
      then positive_overflow else cast_value s
  | uint32_t =>
      if (int_max uint32_t <? int_max S)%Z && (int_max uint32_t <? s)%Z
      then positive_overflow else cast_value s
  end.

(** ** Image buffers *)

(** The concrete buffer kinds of the variant [image_any]. *)
Inductive image_kind : Type := rgba8 | gray8 | gray16 | gray32f.

(** Modelled from the spec: the buffer classes are declared in
    [mapnik/image.hpp], outside [src/]. Each kind owns one pixel element
    type: a packed 32-bit word for the colour kind, 8-bit and 16-bit
    unsigned integers and a 32-bit float for the grey kinds. *)
Definition pixel_type (k : image_kind) : numeric_type :=
  match k with
  | rgba8 => uint32_t
  | gray8 => uint8_t
  | gray16 => uint16_t
  | gray32f => float_t
  end.

Abbreviation pixel k := (value (pixel_type k)).

(** Modelled from the spec: a concrete buffer owns a width, a height, a
    contiguous grid of pixels and the two metadata fields [offset] and
    [scaling]. The loop counters of the visitors are [unsigned]; dimensions
    are natural numbers here, which stands for buffers whose sides fit that
    type. *)
Record image (k : image_kind) : Type := mk_image {
  width : nat;
  height : nat;
  pData : list (pixel k);
  offset_ : double;
  scaling_ : double
}.
Arguments mk_image {k} _ _ _ _ _.
Arguments width {k} _.
Arguments height {k} _.
Arguments pData {k} _.
Arguments offset_ {k} _.
Arguments scaling_ {k} _.

(** The invariant of a concrete buffer: the grid has [width * height]
    elements. *)
Definition wf_image {k : image_kind} (im : image k) : Prop :=
  length (pData im) = (height im * width im)%nat.

Definition zero_value (t : numeric_type) : value t :=
  match t return value t with
  | float_t | double_t => S754_zero false
  | _ => 0%Z
  end.

#[export] Instance value_inhabited (t : numeric_type) : Inhabited (value t) :=
  populate (zero_value t).

(** Modelled from the spec: construction with [(width, height,
    zero_initialize)], metadata at the defaults [offset = 0.0] and
    [scaling = 1.0]. With [zero_initialize = false] the contents are
    indeterminate until written; the model fills the grid with zeros, and
    [cast_loop_pixel] shows that the visitors overwrite every cell. *)
Definition image_new (k : image_kind) (w h : nat) : image k :=
  mk_image w h (replicate (h * w) (zero_value (pixel_type k))) d_zero d_one.

(** Modelled from the spec: indexed pixel read [src(x,y)] and write
    [dst(x,y) = v] on the row-major grid. *)
Definition get_pixel {k : image_kind} (im : image k) (x y : nat) : pixel k :=
  pData im !!! (y * width im + x)%nat.

Definition set_pixel {k : image_kind} (im : image k) (x y : nat) (v : pixel k)
  : image k :=
  mk_image (width im) (height im) (<[(y * width im + x)%nat := v]> (pData im))
           (offset_ im) (scaling_ im).

(** Modelled from the spec: the metadata accessors and mutators. *)
Definition get_offset {k : image_kind} (im : image k) : double := offset_ im.
Definition get_scaling {k : image_kind} (im : image k) : double := scaling_ im.

Definition set_offset {k : image_kind} (o : double) (im : image k) : image k :=
  mk_image (width im) (height im) (pData im) o (scaling_ im).

Definition set_scaling {k : image_kind} (s : double) (im : image k) : image k :=
  mk_image (width im) (height im) (pData im) (offset_ im) s.

(** The variant [image_any]: the null marker or one concrete buffer. *)
Inductive image_any : Type :=
  | image_null
  | image_of (k : image_kind) (im : image k).

(** Modelled from the spec: [image_any::get_offset] and
    [image_any::get_scaling] read the metadata of the active buffer; the
    null marker carries none and answers with the defaults. *)
Definition any_get_offset (data : image_any) : double :=
  match data with
  | image_null => d_zero
  | image_of _ im => get_offset im
  end.

Definition any_get_scaling (data : image_any) : double :=
  match data with
  | image_null => d_one
  | image_of _ im => get_scaling im
  end.

Definition image_kind_eq_dec (a b : image_kind) : {a = b} + {a <> b}.
Proof. decide equality. Defined.

(** ** Exceptions *)

Inductive exception : Type := runtime_error (what : string).

Inductive outcome (A : Type) : Type :=
  | Returned (a : A)
  | Thrown (e : exception).
Arguments Returned {A} a.
Arguments Thrown {A} e.

Definition outcome_map {A B : Type} (f : A -> B) (r : outcome A) : outcome B :=
  match r with
  | Returned a => Returned (f a)
  | Thrown e => Thrown e
  end.

(** The two failures of the translation unit; the spec calls them
    [InvalidInput] and [UnknownFormat]. *)
Definition InvalidInput : exception := runtime_error "Can not cast a null image".
Definition UnknownFormat : exception := runtime_error "Unknown image type passed".

(** The values a pixel of each type can hold: the range of the unsigned
    types, and the floats in canonical form within the format. *)
Definition valid_value (t : numeric_type) : value t -> Prop :=
  match t return value t -> Prop with
  | uint8_t => fun v => (0 <= v <= int_max uint8_t)%Z
  | uint16_t => fun v => (0 <= v <= int_max uint16_t)%Z
  | uint32_t => fun v => (0 <= v <= int_max uint32_t)%Z
  | float_t => fun f => valid_binary 24 128 f = true
  | double_t => fun f => valid_binary 53 1024 f = true
  end.

Definition valid_pixels {k : image_kind} (im : image k) : Prop :=
  Forall (valid_value (pixel_type k)) (pData im).

(** The integer held by a value of an unsigned type (0 on the floating
    types, where it is not used). *)
Definition raw (t : numeric_type) : value t -> Z :=
  match t return value t -> Z with
  | uint8_t | uint16_t | uint32_t => fun v => v
  | float_t | double_t => fun _ => 0%Z
  end.

(** The element type of [D] holds every value of the element type of [S]:
    a wider unsigned type, or [float] for integers of at most 24 bits. *)
Definition widens (S D : image_kind) : bool :=
  match S, D with
  | gray8, (gray16 | rgba8 | gray32f) => true
  | gray16, (rgba8 | gray32f) => true
  | _, _ => false
  end.

(** ** Values of floats

    Definitions used to state facts about [SpecFloat]: the record of a
    mantissa with no bits shifted out, and the value of a finite float as an
    integer multiple of [2^-c]. *)
Definition exact_record (z : Z) : shr_record :=
  {| shr_m := z; shr_r := false; shr_s := false |}.

Definition scaled (c : Z) (f : spec_float) : Z :=
  match f with
  | S754_finite s m e => cond_Zopp s (Zpos m * 2 ^ (e + c))%Z
  | _ => 0%Z
  end.

Definition finite_or_zero (f : spec_float) : bool :=
  match f with
  | S754_zero _ | S754_finite _ _ _ => true
  | _ => false
  end.

(** The value x86-64 and AArch64 conversions leave in an unsigned
    destination of at most 32 bits when the operand is a NaN; used where the
    model is run on concrete buffers. *)
Definition nan_to_zero (_ : numeric_type) : Z := 0%Z.

Section Platform.

(** Converting a NaN to an integer type passes the range check of
    [numeric_cast] (every comparison with a NaN is false) and reaches a
    conversion whose result the C++ standard leaves undefined. The value the
    platform produces there is a parameter of the model. *)
Variable nan_to_int : numeric_type -> Z.

(** A floating source [s] of type [S] and an integer destination [T]: with
    the default rounder ([Trunc]) the range check is
    [s <= lowest - 1] and [s >= highest + 1], both bounds computed in [S]. *)
Definition float_to_int (S T : numeric_type) (s : spec_float) : cast_result Z :=
  let lo := SFsub (prec S) (emax S) (float_of_Z S 0) (float_of_Z S 1) in
  let hi := SFadd (prec S) (emax S) (float_of_Z S (int_max T)) (float_of_Z S 1) in
  if SFleb s lo then negative_overflow
  else if SFleb hi s then positive_overflow
  else match s with
       | S754_nan => cast_value (nan_to_int T)
       | _ => cast_value (float_trunc s)
       end.

(** A floating source and a floating destination: checked against
    [lowest] and [highest] of the destination only when narrowing, widened
    without a check, and returned as it is between equal types. *)
Definition float_to_float (S T : numeric_type) (s : spec_float)
  : cast_result spec_float :=
  if (prec T <? prec S)%Z then
    if SFltb s (float_convert S (SFopp (float_max T))) then negative_overflow
    else if SFltb (float_convert S (float_max T)) s then positive_overflow
    else cast_value (float_convert T s)
  else if (prec S <? prec T)%Z then cast_value (float_convert T s)
  else cast_value s.

Definition cast_of_float (S T : numeric_type) (s : spec_float)
  : cast_result (value T) :=
  match T return cast_result (value T) with
  | uint8_t => float_to_int S uint8_t s
  | uint16_t => float_to_int S uint16_t s
  | uint32_t => float_to_int S uint32_t s
  | float_t => float_to_float S float_t s
  | double_t => float_to_float S double_t s
  end.

(** [boost::numeric_cast<T>(s)] for [s] of type [S]. *)
Definition numeric_cast (S T : numeric_type) : value S -> cast_result (value T) :=
  match S return value S -> cast_result (value T) with
  | uint8_t => cast_of_int uint8_t T
  | uint16_t => cast_of_int uint16_t T
  | uint32_t => cast_of_int uint32_t T
  | float_t => cast_of_float float_t T
  | double_t => cast_of_float double_t T
  end.

(** The [try]/[catch] block around each pixel: the value stored is the cast
    value, [numeric_limits<dst_type>::min()] on [negative_overflow] and
    [numeric_limits<dst_type>::max()] on [positive_overflow]. *)
Definition catch_overflow (T : numeric_type) (r : cast_result (value T)) : value T :=
  match r with
  | cast_value v => v
  | negative_overflow => limits_min T
  | positive_overflow => limits_max T
  end.

Definition saturating_cast (S T : numeric_type) (s : value S) : value T :=
  catch_overflow T (numeric_cast S T s).

(** ** The visitors *)

(** [for (unsigned i = 0; i < n; ++i) body]. *)
Definition for_loop {A : Type} (n : nat) (body : nat -> A -> A) (a : A) : A :=
  foldl (fun acc i => body i acc) a (seq 0 n).

(** The two nested loops shared by the generic overloads: every cell of
    [dst] receives [conv] of the source pixel at the same coordinates. *)
Definition cast_loop {T0 T1 : image_kind} (conv : pixel T1 -> pixel T0)
    (src : image T1) (dst : image T0) : image T0 :=
  for_loop (height dst) (fun y dst1 =>
    for_loop (width dst) (fun x dst2 =>
      set_pixel dst2 x y (conv (get_pixel src x y))) dst1) dst.

(** What is known of the destination after the rows below [y0] and the first
    [x0] cells of row [y0] have been written. *)
Definition written {T0 T1 : image_kind} (conv : pixel T1 -> pixel T0)
    (src : image T1) (dst : image T0) (y0 x0 : nat) (d : image T0) : Prop :=
  width d = width dst /\ height d = height dst /\
  offset_ d = offset_ dst /\ scaling_ d = scaling_ dst /\
  length (pData d) = length (pData dst) /\
  forall x y, (x < width dst)%nat ->
    (y < y0 \/ (y = y0 /\ x < x0))%nat ->
    pData d !! (y * width dst + x)%nat = Some (conv (get_pixel src x y)).

(** [visitor_image_cast<T0>::operator()(T1 const&)], the generic overload. *)
Definition plain_cast (T0 T1 : image_kind) (src : image T1) : image T0 :=
  let dst := image_new T0 (width src) (height src) in
  cast_loop (saturating_cast (pixel_type T1) (pixel_type T0)) src dst.

(** [visitor_image_cast<T0>]: the null overload throws, the overload on
    [T0 const&] copies, the generic overload converts pixel by pixel. *)
Definition visitor_image_cast (T0 : image_kind) (src : image_any)
  : outcome (image T0) :=
  match src with
  | image_null => Thrown (runtime_error "Can not cast a null image")
  | image_of T1 im =>
      match image_kind_eq_dec T1 T0 with
      | left e => Returned (eq_rect T1 image im T0 e)
      | right _ => Returned (plain_cast T0 T1 im)
      end
  end.

(** The value the rescaling visitor computes for one pixel, in [double]. *)
Definition rescale (src_offset src_scaling offset scaling : double)
    (v : double) : double :=
  let scaled_src_val := d_add (d_mul v src_scaling) src_offset in
  d_div (d_sub scaled_src_val offset) scaling.

(** What [numeric_cast<double>] returns: the integer itself, or the float
    widened. *)
Definition double_of (S : numeric_type) : value S -> double :=
  match S return value S -> double with
  | uint8_t | uint16_t | uint32_t => float_of_Z double_t
  | float_t => float_convert double_t
  | double_t => fun s => s
  end.

(** [numeric_cast<double>(src(x,y))] stands outside the [try] block, so an
    overflow there would leave the visitor. No source type can overflow a
    [double] ([numeric_cast_double_total]), and the last two branches are
    never taken. *)
Definition to_double (S : numeric_type) (s : value S) : double :=
  match numeric_cast S double_t s with
  | cast_value v => v
  | negative_overflow | positive_overflow => S754_nan
  end.

Definition rescale_pixel (S T : numeric_type)
    (src_offset src_scaling offset scaling : double) (s : value S) : value T :=
  saturating_cast double_t T
    (rescale src_offset src_scaling offset scaling (to_double S s)).

(** [visitor_image_cast_so<T0>::operator()(T1 const&)], the generic
    overload. *)
Definition rescaling_cast (T0 T1 : image_kind) (offset scaling : double)
    (src : image T1) : image T0 :=
  let src_offset := get_offset src in
  let src_scaling := get_scaling src in
  let dst := image_new T0 (width src) (height src) in
  let dst := set_scaling scaling dst in
  let dst := set_offset offset dst in
  cast_loop (rescale_pixel (pixel_type T1) (pixel_type T0)
               src_offset src_scaling offset scaling) src dst.

(** [visitor_image_cast_so<T0>] built with [(offset, scaling)]. *)
Definition visitor_image_cast_so (T0 : image_kind) (offset scaling : double)
    (src : image_any) : outcome (image T0) :=
  match src with
  | image_null => Thrown (runtime_error "Can not cast a null image")
  | image_of T1 im =>
      match image_kind_eq_dec T1 T0 with
      | left e => Returned (eq_rect T1 image im T0 e)
      | right _ => Returned (rescaling_cast T0 T1 offset scaling im)
      end
  end.

(** ** Entry points *)

(** The guard of every [image_cast<T>] overload. *)
Definition identity_guard (offset scaling src_offset src_scaling : double) : bool :=
  d_eq offset d_zero && d_eq scaling d_one
  && d_eq src_offset d_zero && d_eq src_scaling d_one.

(** [image_cast<T>(image_any const&, double, double)]. *)
Definition image_cast (T : image_kind) (data : image_any)
    (offset scaling : double) : outcome (image T) :=
  if identity_guard offset scaling (any_get_offset data) (any_get_scaling data)
  then visitor_image_cast T data
  else visitor_image_cast_so T offset scaling data.

(** [image_cast<T>(image_rgba8 const&, ...)] and its three siblings on
    [image_gray8], [image_gray16] and [image_gray32f]: the visitor is called
    on the concrete buffer. *)
Definition image_cast_concrete (T S : image_kind) (data : image S)
    (offset scaling : double) : outcome (image T) :=
  if identity_guard offset scaling (get_offset data) (get_scaling data)
  then visitor_image_cast T (image_of S data)
  else visitor_image_cast_so T offset scaling (image_of S data).

(** Modelled from the spec: the enumeration [image_dtype] is declared
    outside [src/]. It names the four concrete kinds and the null format; an
    object of a C++ enumeration type can also hold a value that is none of
    its enumerators, which [image_dtype_other] stands for. *)
Inductive image_dtype : Type :=
  | image_dtype_rgba8
  | image_dtype_gray8
  | image_dtype_gray16
  | image_dtype_gray32f
  | image_dtype_null
  | image_dtype_other (raw : Z).

Definition recognized (type : image_dtype) : bool :=
  match type with
  | image_dtype_other _ => false
  | _ => true
  end.

Definition dtype_of_kind (k : image_kind) : image_dtype :=
  match k with
  | rgba8 => image_dtype_rgba8
  | gray8 => image_dtype_gray8
  | gray16 => image_dtype_gray16
  | gray32f => image_dtype_gray32f
  end.

(** [image_cast(image_any const&, image_dtype, double, double)]. *)
Definition image_cast_any (data : image_any) (type : image_dtype)
    (offset scaling : double) : outcome image_any :=
  match type with
  | image_dtype_rgba8 =>
      outcome_map (image_of rgba8) (image_cast rgba8 data offset scaling)
  | image_dtype_gray8 =>
      outcome_map (image_of gray8) (image_cast gray8 data offset scaling)
  | image_dtype_gray16 =>
      outcome_map (image_of gray16) (image_cast gray16 data offset scaling)
  | image_dtype_gray32f =>
      outcome_map (image_of gray32f) (image_cast gray32f data offset scaling)
  | image_dtype_null => Thrown (runtime_error "Can not cast a null image")
  | image_dtype_other _ => Thrown (runtime_error "Unknown image type passed")
  end.

(** * Properties *)

(** ** Loops and the pixel grid *)

Lemma for_loop_S {A : Type} (n : nat) (body : nat -> A -> A) (a : A) :
  for_loop (S n) body a = body n (for_loop n body a).
Proof.
  unfold for_loop. rewrite seq_S, foldl_app. reflexivity.
Qed.

Lemma for_loop_ind {A : Type} (P : nat -> A -> Prop) (n : nat)
    (body : nat -> A -> A) (a : A) :
  P 0%nat a ->
  (forall i x, (i < n)%nat -> P i x -> P (S i) (body i x)) ->
  P n (for_loop n body a).
Proof.
  intros H0 Hstep.
  assert (Hgen : forall m, (m <= n)%nat -> P m (for_loop m body a)).
  { induction m as [|m IH]; intros Hm.
    - exact H0.
    - rewrite for_loop_S. apply Hstep; [lia | apply IH; lia]. }
  apply Hgen. lia.
Qed.

Lemma for_loop_ext {A : Type} (n : nat) (f g : nat -> A -> A) (a : A) :
  (forall i x, (i < n)%nat -> f i x = g i x) ->
  for_loop n f a = for_loop n g a.
Proof.
  intros Hfg.
  assert (Hgen : forall m, (m <= n)%nat -> for_loop m f a = for_loop m g a).
  { induction m as [|m IH]; intros Hm.
    - reflexivity.
    - rewrite !for_loop_S, IH by lia. apply Hfg. lia. }
  apply Hgen. lia.
Qed.

(** Two cells of a row-major grid coincide only at equal coordinates. *)
Lemma cell_index_inj (w x y x' y' : nat) :
  (x < w)%nat -> (x' < w)%nat ->
  (y * w + x = y' * w + x')%nat -> x = x' /\ y = y'.
Proof.
  intros Hx Hx' He.
  assert (y = y') by (destruct (Nat.lt_total y y') as [H|[H|H]]; nia).
  subst y'. lia.
Qed.

Lemma written_step {T0 T1 : image_kind} (conv : pixel T1 -> pixel T0)
    (src : image T1) (dst : image T0) (y0 x0 : nat) (d : image T0) :
  wf_image dst -> (y0 < height dst)%nat -> (x0 < width dst)%nat ->
  written conv src dst y0 x0 d ->
  written conv src dst y0 (S x0) (set_pixel d x0 y0 (conv (get_pixel src x0 y0))).
Proof.
  intros Hwf Hy Hx (Hw & Hh & Ho & Hs & Hl & Hp).
  unfold written, set_pixel; simpl.
  rewrite length_insert. repeat split; try assumption.
  intros x y Hxw Hxy. rewrite Hw.
  destruct (decide ((y0 * width dst + x0)%nat = (y * width dst + x)%nat)) as [He|Hne].
  - apply cell_index_inj in He; [|assumption..]. destruct He as [-> ->].
    apply list_lookup_insert_eq. rewrite Hl. unfold wf_image in Hwf. nia.
  - rewrite list_lookup_insert_ne by assumption.
    apply Hp; [assumption|].
    destruct Hxy as [Hlt|[-> Hlt]]; [left; assumption|].
    right. split; [reflexivity|].
    assert (x <> x0) by (intros ->; apply Hne; reflexivity). lia.
Qed.

Lemma written_row {T0 T1 : image_kind} (conv : pixel T1 -> pixel T0)
    (src : image T1) (dst : image T0) (y0 : nat) (d : image T0) :
  wf_image dst -> (y0 < height dst)%nat ->
  written conv src dst y0 0 d ->
  written conv src dst (S y0) 0
    (for_loop (width dst)
       (fun x d2 => set_pixel d2 x y0 (conv (get_pixel src x y0))) d).
Proof.
  intros Hwf Hy Hd.
  assert (Hrow : written conv src dst y0 (width dst)
            (for_loop (width dst)
               (fun x d2 => set_pixel d2 x y0 (conv (get_pixel src x y0))) d)).
  { apply for_loop_ind with (P := fun x0 d2 => written conv src dst y0 x0 d2).
    - exact Hd.
    - intros i d2 Hi Hd2. apply written_step; assumption. }
  destruct Hrow as (Hw & Hh & Ho & Hs & Hl & Hp).
  repeat split; try assumption.
  intros x y Hx Hxy. apply Hp; [assumption|]. lia.
Qed.

Lemma cast_loop_written {T0 T1 : image_kind} (conv : pixel T1 -> pixel T0)
    (src : image T1) (dst : image T0) :
  wf_image dst ->
  written conv src dst (height dst) 0 (cast_loop conv src dst).
Proof.
  intros Hwf. unfold cast_loop.
  apply for_loop_ind with (P := fun y0 d => written conv src dst y0 0 d).
  - repeat split. intros x y _ [Hy|[_ Hx]]; lia.
  - intros y0 d Hy Hd. apply written_row; assumption.
Qed.

(** Every cell of the destination holds the converted source pixel. *)
Lemma cast_loop_pixel {T0 T1 : image_kind} (conv : pixel T1 -> pixel T0)
    (src : image T1) (dst : image T0) (x y : nat) :
  wf_image dst -> (x < width dst)%nat -> (y < height dst)%nat ->
  get_pixel (cast_loop conv src dst) x y = conv (get_pixel src x y).
Proof.
  intros Hwf Hx Hy.
  destruct (cast_loop_written conv src dst Hwf) as (Hw & _ & _ & _ & _ & Hp).
  unfold get_pixel. rewrite Hw.
  apply list_lookup_total_correct, Hp; [assumption | left; assumption].
Qed.

Lemma cast_loop_shape {T0 T1 : image_kind} (conv : pixel T1 -> pixel T0)
    (src : image T1) (dst : image T0) :
  wf_image dst ->
  let r := cast_loop conv src dst in
  width r = width dst /\ height r = height dst /\
  offset_ r = offset_ dst /\ scaling_ r = scaling_ dst /\ wf_image r.
Proof.
  intros Hwf r.
  destruct (cast_loop_written conv src dst Hwf) as (Hw & Hh & Ho & Hs & Hl & _).
  fold r in Hw, Hh, Ho, Hs, Hl.
  repeat split; try assumption.
  unfold wf_image in *. rewrite Hl, Hw, Hh. exact Hwf.
Qed.

(** The loops only read the source at cells inside the destination, so two
    conversions that agree there build the same buffer. *)
Lemma cast_loop_ext {T0 T1 : image_kind} (f g : pixel T1 -> pixel T0)
    (src : image T1) (dst : image T0) :
  (forall x y, (x < width dst)%nat -> (y < height dst)%nat ->
     f (get_pixel src x y) = g (get_pixel src x y)) ->
  cast_loop f src dst = cast_loop g src dst.
Proof.
  intros Hfg. unfold cast_loop.
  apply for_loop_ext. intros y d Hy.
  apply for_loop_ext. intros x d2 Hx.
  rewrite Hfg by assumption. reflexivity.
Qed.

Lemma image_new_wf (k : image_kind) (w h : nat) : wf_image (image_new k w h).
Proof. unfold wf_image, image_new; simpl. apply length_replicate. Qed.

Lemma image_kind_eq_dec_refl (k : image_kind) :
  image_kind_eq_dec k k = left eq_refl.
Proof. destruct k; reflexivity. Qed.

(** ** Binary floating-point arithmetic *)

Section FloatFacts.
Local Open Scope Z_scope.

Lemma digits2_pos_bounds (m : positive) :
  2 ^ (Zpos (digits2_pos m) - 1) <= Zpos m < 2 ^ Zpos (digits2_pos m).
Proof.
  induction m as [m IH|m IH|]; cbn [digits2_pos].
  - rewrite Pos2Z.inj_succ. replace (Z.succ (Zpos (digits2_pos m)) - 1) with (Z.succ (Zpos (digits2_pos m) - 1)) by lia.
    rewrite !Z.pow_succ_r by lia. lia.
  - rewrite Pos2Z.inj_succ. replace (Z.succ (Zpos (digits2_pos m)) - 1) with (Z.succ (Zpos (digits2_pos m) - 1)) by lia.
    rewrite !Z.pow_succ_r by lia. lia.
  - simpl. lia.
Qed.

Lemma digits2_pos_unique (m : positive) (d : Z) :
  2 ^ (d - 1) <= Zpos m < 2 ^ d -> Zpos (digits2_pos m) = d.
Proof.
  intros [Hlo Hhi]. pose proof (digits2_pos_bounds m) as [Hlo' Hhi'].
  assert (Hd : 0 < d).
  { destruct (Z_lt_le_dec 0 d) as [H|H]; [exact H|].
    destruct (Z.eq_dec d 0) as [->|]; [simpl in Hhi; lia|].
    rewrite Z.pow_neg_r in Hhi by lia. lia. }
  assert (d - 1 < Zpos (digits2_pos m)).
  { apply (Z.pow_lt_mono_r_iff 2); lia. }
  assert (Zpos (digits2_pos m) - 1 < d).
  { apply (Z.pow_lt_mono_r_iff 2); lia. }
  lia.
Qed.

Lemma Zdigits2_mul_pow2 (z k : Z) :
  0 < z -> 0 <= k -> Zdigits2 (z * 2 ^ k) = Zdigits2 z + k.
Proof.
  intros Hz Hk. destruct z as [|m|m]; try lia.
  pose proof (digits2_pos_bounds m) as [Hlo Hhi].
  assert (Hp : 0 < 2 ^ k) by (apply Z.pow_pos_nonneg; lia).
  destruct (Zpos m * 2 ^ k) as [|p|p] eqn:E; try lia.
  cbn [Zdigits2]. apply digits2_pos_unique. rewrite <- E.
  replace (Zpos (digits2_pos m) + k - 1) with (Zpos (digits2_pos m) - 1 + k) by lia.
  rewrite !Z.pow_add_r by lia. nia.
Qed.

Lemma iter_pos_nat {A : Type} (f : A -> A) (p : positive) (x : A) :
  SpecFloat.iter_pos f p x = Nat.iter (Pos.to_nat p) f x.
Proof.
  revert x. induction p as [p IH|p IH|]; intros x; cbn [SpecFloat.iter_pos].
  - rewrite !IH, Pos2Nat.inj_xI.
    replace (S (2 * Pos.to_nat p))%nat
      with (Pos.to_nat p + (Pos.to_nat p + 1))%nat by lia.
    rewrite !Nat.iter_add. reflexivity.
  - rewrite !IH, Pos2Nat.inj_xO.
    replace (2 * Pos.to_nat p)%nat with (Pos.to_nat p + Pos.to_nat p)%nat by lia.
    rewrite Nat.iter_add. reflexivity.
  - reflexivity.
Qed.

Lemma shr_1_double (z : Z) :
  0 <= z -> shr_1 (exact_record (2 * z)) = exact_record z.
Proof. intros Hz. destruct z as [|p|p]; [reflexivity..|lia]. Qed.

Lemma shr_iter_pow2 (k : nat) (z : Z) :
  0 <= z ->
  Nat.iter k shr_1 (exact_record (z * 2 ^ Z.of_nat k)) = exact_record z.
Proof.
  revert z. induction k as [|k IH]; intros z Hz.
  - simpl. rewrite Z.mul_1_r. reflexivity.
  - rewrite Nat2Z.inj_succ, Z.pow_succ_r by lia.
    rewrite Nat.iter_succ.
    replace (z * (2 * 2 ^ Z.of_nat k)) with ((2 * z) * 2 ^ Z.of_nat k) by lia.
    rewrite IH by lia. apply shr_1_double; assumption.
Qed.

Lemma shr_exact_shift (z e k n : Z) :
  0 <= z -> 0 <= k -> 0 <= n ->
  shr (exact_record (z * 2 ^ k)) (e - k) (n + k) = shr (exact_record z) e n.
Proof.
  intros Hz Hk Hn.
  assert (Hk0 : Nat.iter (Z.to_nat k) shr_1 (exact_record (z * 2 ^ k))
                = exact_record z).
  { rewrite <- (Z2Nat.id k) at 2 by lia. apply shr_iter_pow2. lia. }
  unfold shr.
  destruct (n + k) as [|p|p] eqn:Enk; try lia.
  - assert (k = 0) by lia. assert (n = 0) by lia. subst.
    rewrite Z.mul_1_r, Z.sub_0_r. reflexivity.
  - rewrite iter_pos_nat.
    replace (Pos.to_nat p) with (Z.to_nat n + Z.to_nat k)%nat by lia.
    rewrite Nat.iter_add, Hk0.
    destruct n as [|q|q]; try lia.
    + simpl. f_equal. lia.
    + rewrite iter_pos_nat. rewrite Z2Nat.inj_pos. f_equal. lia.
Qed.

Section Format.
Variables prec emax : Z.

Lemma binary_round_aux_canonical (s : bool) (m : positive) (e : Z) :
  bounded prec emax m e = true ->
  binary_round_aux prec emax s (Zpos m) e loc_Exact = S754_finite s m e.
Proof.
  unfold bounded, canonical_mantissa. intros H.
  apply andb_true_iff in H. destruct H as [Hc He].
  apply Z.eqb_eq in Hc.
  unfold binary_round_aux, shr_fexp. cbn [Zdigits2 shr_record_of_loc].
  rewrite Hc, Z.sub_diag. cbn [shr shr_m loc_of_shr_record round_nearest_even].
  cbn [Zdigits2]. rewrite Hc, Z.sub_diag. cbn [shr shr_m].
  rewrite He. reflexivity.
Qed.

Lemma binary_round_aux_shift (s : bool) (z e k : Z) :
  0 < z -> 0 <= k -> e <= fexp prec emax (Zdigits2 z + e) ->
  binary_round_aux prec emax s (z * 2 ^ k) (e - k) loc_Exact
  = binary_round_aux prec emax s z e loc_Exact.
Proof.
  intros Hz Hk He.
  assert (Hs : shr_fexp prec emax (z * 2 ^ k) (e - k) loc_Exact
               = shr_fexp prec emax z e loc_Exact).
  { unfold shr_fexp. rewrite Zdigits2_mul_pow2 by assumption.
    cbn [shr_record_of_loc].
    replace (Zdigits2 z + k + (e - k)) with (Zdigits2 z + e) by lia.
    set (E := fexp prec emax (Zdigits2 z + e)) in *.
    replace (E - (e - k)) with ((E - e) + k) by lia.
    apply (shr_exact_shift z e k (E - e)); lia. }
  unfold binary_round_aux. rewrite Hs. reflexivity.
Qed.

Lemma shl_align_spec (m : positive) (e E : Z) :
  Zpos (fst (shl_align m e E)) = Zpos m * 2 ^ (e - Z.min e E) /\
  snd (shl_align m e E) = Z.min e E.
Proof.
  unfold shl_align. destruct (E - e) as [|p|p] eqn:Ed; cbn [fst snd].
  - rewrite Z.min_l by lia. rewrite Z.sub_diag. simpl. lia.
  - rewrite Z.min_l by lia. rewrite Z.sub_diag. simpl. lia.
  - rewrite Z.min_r by lia. split; [|reflexivity].
    change (Pos.iter xO m p) with (shift_pos p m).
    rewrite shift_pos_correct. change (Zpower_pos 2 p) with (2 ^ Zpos p).
    replace (e - E) with (Zpos p) by lia. lia.
Qed.

Lemma binary_round_unfold (s : bool) (m : positive) (e : Z) :
  let E := fexp prec emax (Zpos (digits2_pos m) + e) in
  binary_round prec emax s m e
  = binary_round_aux prec emax s (Zpos m * 2 ^ (e - Z.min e E)) (Z.min e E)
      loc_Exact.
Proof.
  intros E. unfold binary_round. fold E.
  destruct (shl_align_spec m e E) as [Hm He].
  destruct (shl_align m e E) as [mz ez]. cbn [fst snd] in *.
  rewrite Hm, He. reflexivity.
Qed.

(** Rounding depends on the value only: scaling the mantissa by a power of
    two and lowering the exponent accordingly gives the same float. *)
Lemma binary_round_shift (s : bool) (m m' : positive) (e k : Z) :
  0 <= k -> Zpos m' = Zpos m * 2 ^ k ->
  binary_round prec emax s m' (e - k) = binary_round prec emax s m e.
Proof.
  intros Hk Hm'. rewrite !binary_round_unfold.
  assert (Hd : Zpos (digits2_pos m') = Zpos (digits2_pos m) + k).
  { change (Zdigits2 (Zpos m') = Zdigits2 (Zpos m) + k).
    rewrite Hm'. apply Zdigits2_mul_pow2; lia. }
  rewrite Hd.
  replace (Zpos (digits2_pos m) + k + (e - k)) with (Zpos (digits2_pos m) + e) by lia.
  set (E := fexp prec emax (Zpos (digits2_pos m) + e)).
  set (ez := Z.min e E). set (ez' := Z.min (e - k) E).
  assert (Hez : ez' <= ez) by (unfold ez, ez'; lia).
  assert (Hp : 0 < 2 ^ (e - ez)) by (apply Z.pow_pos_nonneg; unfold ez; lia).
  rewrite Hm'.
  replace (Zpos m * 2 ^ k * 2 ^ (e - k - ez'))
    with ((Zpos m * 2 ^ (e - ez)) * 2 ^ (ez - ez')).
  2:{ rewrite <- !Z.mul_assoc, <- !Z.pow_add_r by (unfold ez, ez'; lia).
      f_equal. f_equal. lia. }
  replace ez' with (ez - (ez - ez')) at 2 by lia.
  apply binary_round_aux_shift; [lia | lia |].
  rewrite Zdigits2_mul_pow2 by (unfold ez; lia). cbn [Zdigits2].
  replace (Zpos (digits2_pos m) + (e - ez) + ez) with (Zpos (digits2_pos m) + e) by lia.
  fold E. unfold ez. lia.
Qed.

(** A value that needs no rounding is returned as it is, in canonical
    form. *)
Lemma binary_round_exact (s : bool) (m : positive) (e : Z) :
  let E := fexp prec emax (Zpos (digits2_pos m) + e) in
  E <= e -> E <= emax - prec ->
  exists m', binary_round prec emax s m e = S754_finite s m' E /\
             Zpos m' = Zpos m * 2 ^ (e - E) /\
             bounded prec emax m' E = true.
Proof.
  intros E HE Hmax. rewrite binary_round_unfold. fold E.
  rewrite Z.min_r by lia.
  assert (Hp : 0 < 2 ^ (e - E)) by (apply Z.pow_pos_nonneg; lia).
  destruct (Zpos m * 2 ^ (e - E)) as [|m'|m'] eqn:Hm'; try lia.
  exists m'. 
  assert (Hb : bounded prec emax m' E = true).
  { unfold bounded, canonical_mantissa. apply andb_true_iff. split.
    - apply Z.eqb_eq. change (Zpos (digits2_pos m')) with (Zdigits2 (Zpos m')).
      rewrite <- Hm', Zdigits2_mul_pow2 by lia. cbn [Zdigits2].
      replace (Zpos (digits2_pos m) + (e - E) + E) with (Zpos (digits2_pos m) + e) by lia.
      reflexivity.
    - apply Z.leb_le. lia. }
  split; [apply binary_round_aux_canonical; exact Hb|].
  split; [reflexivity | exact Hb].
Qed.

End Format.

Section Ordering.
Variables prec emax c : Z.
Hypothesis prec_pos : 0 < prec.
Hypothesis scale_ok : - c <= emin prec emax.

Lemma canonical_digits (m : positive) (e : Z) :
  canonical_mantissa prec emax m e = true ->
  emin prec emax <= e /\ Zpos (digits2_pos m) <= prec /\
  (emin prec emax < e -> Zpos (digits2_pos m) = prec).
Proof.
  unfold canonical_mantissa, fexp. intros H. apply Z.eqb_eq in H. lia.
Qed.

Lemma canonical_lt (m1 m2 : positive) (e1 e2 : Z) :
  canonical_mantissa prec emax m1 e1 = true ->
  canonical_mantissa prec emax m2 e2 = true ->
  e1 < e2 ->
  Zpos m1 * 2 ^ (e1 + c) < Zpos m2 * 2 ^ (e2 + c).
Proof.
  intros H1 H2 Hlt.
  apply canonical_digits in H1. destruct H1 as (Hmin1 & Hd1 & _).
  apply canonical_digits in H2. destruct H2 as (Hmin2 & _ & Hd2).
  specialize (Hd2 ltac:(lia)).
  pose proof (digits2_pos_bounds m1) as [_ Hhi].
  pose proof (digits2_pos_bounds m2) as [Hlo _].
  rewrite Hd2 in Hlo.
  assert (Hp1 : 0 < 2 ^ (e1 + c)) by (apply Z.pow_pos_nonneg; lia).
  assert (Hp2 : 0 < 2 ^ (e2 + c)) by (apply Z.pow_pos_nonneg; lia).
  assert (Ha : Zpos m1 * 2 ^ (e1 + c) < 2 ^ (prec + (e1 + c))).
  { rewrite (Z.pow_add_r 2 prec (e1 + c)) by lia.
    assert (2 ^ Zpos (digits2_pos m1) <= 2 ^ prec)
      by (apply Z.pow_le_mono_r; lia).
    nia. }
  assert (Hb : 2 ^ (prec + (e1 + c)) <= 2 ^ ((prec - 1) + (e2 + c)))
    by (apply Z.pow_le_mono_r; lia).
  rewrite (Z.pow_add_r 2 (prec - 1) (e2 + c)) in Hb by lia.
  nia.
Qed.

Lemma compare_canonical (m1 m2 : positive) (e1 e2 : Z) :
  canonical_mantissa prec emax m1 e1 = true ->
  canonical_mantissa prec emax m2 e2 = true ->
  match e1 ?= e2 with
  | Eq => Pos.compare_cont Eq m1 m2
  | Lt => Lt
  | Gt => Gt
  end = (Zpos m1 * 2 ^ (e1 + c) ?= Zpos m2 * 2 ^ (e2 + c)).
Proof.
  intros H1 H2. destruct (Z.compare_spec e1 e2) as [He|He|He].
  - subst e2. pose proof (canonical_digits _ _ H1) as (Hmin & _ & _).
    assert (Hp : 2 ^ (e1 + c) > 0)
      by (apply Z.lt_gt, Z.pow_pos_nonneg; lia).
    rewrite <- (Zmult_compare_compat_r _ _ _ Hp). reflexivity.
  - symmetry. apply Z.compare_lt_iff. apply canonical_lt; assumption.
  - symmetry. apply Z.compare_gt_iff. apply canonical_lt; assumption.
Qed.

Lemma scaled_sign (s : bool) (m : positive) (e : Z) :
  emin prec emax <= e ->
  if s then scaled c (S754_finite s m e) < 0 else 0 < scaled c (S754_finite s m e).
Proof.
  intros He. assert (0 < 2 ^ (e + c)) by (apply Z.pow_pos_nonneg; lia).
  destruct s; cbn [scaled cond_Zopp]; nia.
Qed.

(** On finite values in canonical form [SFcompare] is the order of the
    values. *)
Lemma SFcompare_scaled (f1 f2 : spec_float) :
  valid_binary prec emax f1 = true -> valid_binary prec emax f2 = true ->
  finite_or_zero f1 = true -> finite_or_zero f2 = true ->
  SFcompare f1 f2 = Some (scaled c f1 ?= scaled c f2).
Proof.
  intros V1 V2 F1 F2.
  destruct f1 as [s1| |  |s1 m1 e1]; try discriminate F1;
  destruct f2 as [s2| |  |s2 m2 e2]; try discriminate F2.
  - reflexivity.
  - cbn [valid_binary] in V2. apply andb_true_iff in V2. destruct V2 as [C2 _].
    pose proof (canonical_digits _ _ C2) as (Hmin & _).
    pose proof (scaled_sign s2 m2 e2 Hmin) as Hs.
    cbn [SFcompare]. f_equal. change (scaled c (S754_zero s1)) with 0.
    symmetry. destruct s2; [apply Z.compare_gt_iff | apply Z.compare_lt_iff]; lia.
  - cbn [valid_binary] in V1. apply andb_true_iff in V1. destruct V1 as [C1 _].
    pose proof (canonical_digits _ _ C1) as (Hmin & _).
    pose proof (scaled_sign s1 m1 e1 Hmin) as Hs.
    cbn [SFcompare]. f_equal. change (scaled c (S754_zero s2)) with 0.
    symmetry. destruct s1; [apply Z.compare_lt_iff | apply Z.compare_gt_iff]; lia.
  - cbn [valid_binary] in V1, V2.
    apply andb_true_iff in V1. destruct V1 as [C1 _].
    apply andb_true_iff in V2. destruct V2 as [C2 _].
    pose proof (canonical_digits _ _ C1) as (Hmin1 & _).
    pose proof (canonical_digits _ _ C2) as (Hmin2 & _).
    pose proof (scaled_sign s1 m1 e1 Hmin1) as Hs1.
    pose proof (scaled_sign s2 m2 e2 Hmin2) as Hs2.
    pose proof (compare_canonical m1 m2 e1 e2 C1 C2) as Hc.
    cbn [SFcompare]. f_equal.
    destruct s1, s2.
    + cbn [scaled cond_Zopp]. rewrite Z.compare_opp.
      rewrite (Z.compare_antisym (Zpos m1 * 2 ^ (e1 + c)) (Zpos m2 * 2 ^ (e2 + c))).
      rewrite <- Hc. destruct (e1 ?= e2); reflexivity.
    + symmetry. apply Z.compare_lt_iff. lia.
    + symmetry. apply Z.compare_gt_iff. lia.
    + cbn [scaled cond_Zopp]. exact Hc.
Qed.

Lemma SFleb_scaled (f1 f2 : spec_float) :
  valid_binary prec emax f1 = true -> valid_binary prec emax f2 = true ->
  finite_or_zero f1 = true -> finite_or_zero f2 = true ->
  SFleb f1 f2 = (scaled c f1 <=? scaled c f2).
Proof.
  intros V1 V2 F1 F2. unfold SFleb, Z.leb.
  rewrite (SFcompare_scaled f1 f2) by assumption.
  destruct (scaled c f1 ?= scaled c f2); reflexivity.
Qed.

Lemma SFltb_scaled (f1 f2 : spec_float) :
  valid_binary prec emax f1 = true -> valid_binary prec emax f2 = true ->
  finite_or_zero f1 = true -> finite_or_zero f2 = true ->
  SFltb f1 f2 = (scaled c f1 <? scaled c f2).
Proof.
  intros V1 V2 F1 F2. unfold SFltb, Z.ltb.
  rewrite (SFcompare_scaled f1 f2) by assumption.
  destruct (scaled c f1 ?= scaled c f2); reflexivity.
Qed.

End Ordering.

(** Truncation is the quotient of the scaled value. *)
Lemma float_trunc_scaled (c : Z) (f : spec_float) :
  0 <= c ->
  match f with S754_finite _ _ e => - c <= e | _ => True end ->
  float_trunc f = Z.quot (scaled c f) (2 ^ c).
Proof.
  intros Hc He. destruct f as [s| | |s m e]; try reflexivity.
  assert (Hp : 0 < 2 ^ c) by (apply Z.pow_pos_nonneg; lia).
  assert (Hq : match e with
               | Zneg p => Z.shiftr (Zpos m) (Zpos p)
               | _ => Z.shiftl (Zpos m) e
               end = Zpos m * 2 ^ (e + c) / 2 ^ c).
  { destruct (Z_lt_le_dec e 0) as [Hneg|Hpos].
    - destruct e as [|p|p]; try lia.
      rewrite Z.shiftr_div_pow2 by lia.
      replace (2 ^ c) with (2 ^ Zpos p * 2 ^ (Zneg p + c))
        by (rewrite <- Z.pow_add_r by lia; f_equal; lia).
      rewrite Z.div_mul_cancel_r; [reflexivity | lia |].
      apply Z.pow_nonzero; lia.
    - rewrite Z.pow_add_r, Z.mul_assoc, Z.div_mul by lia.
      destruct e as [|p|p]; try lia; apply Z.shiftl_mul_pow2; lia. }
  cbn [float_trunc scaled]. rewrite Hq.
  assert (Hn : 0 <= Zpos m * 2 ^ (e + c)).
  { assert (0 < 2 ^ (e + c)) by (apply Z.pow_pos_nonneg; lia). lia. }
  destruct s; cbn [cond_Zopp].
  - rewrite Z.quot_opp_l by lia. rewrite Z.quot_div_nonneg by lia. reflexivity.
  - rewrite Z.quot_div_nonneg by lia. reflexivity.
Qed.

(** ** Multiplying and dividing a [double] by 1.0 *)

Lemma bounded_canonical (prec emax : Z) (m : positive) (e : Z) :
  bounded prec emax m e = true ->
  fexp prec emax (Zpos (digits2_pos m) + e) = e /\ e <= emax - prec.
Proof.
  unfold bounded, canonical_mantissa. intros H.
  apply andb_true_iff in H. destruct H as [Hc He].
  apply Z.eqb_eq in Hc. apply Z.leb_le in He. split; assumption.
Qed.

Lemma d_mul_one (s : bool) (m : positive) (e : Z) :
  bounded 53 1024 m e = true ->
  d_mul (S754_finite s m e) d_one = S754_finite s m e.
Proof.
  intros Hb. pose proof (bounded_canonical _ _ _ _ Hb) as [Hc _].
  unfold d_mul, d_one. cbn [SFmul]. rewrite xorb_false_r, Pos2Z.inj_mul.
  change (Zpos 4503599627370496) with (2 ^ 52).
  change (e + -52) with (e - 52).
  rewrite binary_round_aux_shift; [| lia | lia | cbn [Zdigits2]; lia].
  apply binary_round_aux_canonical. exact Hb.
Qed.

Lemma d_div_one (s : bool) (m : positive) (e : Z) :
  bounded 53 1024 m e = true ->
  d_div (S754_finite s m e) d_one = S754_finite s m e.
Proof.
  intros Hb. pose proof (bounded_canonical _ _ _ _ Hb) as [Hc _].
  unfold d_div, d_one. cbn [SFdiv]. rewrite xorb_false_r.
  unfold SFdiv_core_binary. cbn [Zdigits2].
  change (Zpos (digits2_pos 4503599627370496)) with 53.
  change (Zpos 4503599627370496) with (2 ^ 52).
  set (d := Zpos (digits2_pos m)) in *.
  set (t := fexp 53 1024 (d + e - (53 + -52))).
  assert (Ht : t = e \/ t = e - 1).
  { unfold t, fexp, emin in *. lia. }
  assert (Ht' : Z.min t (e - -52) = t) by lia.
  rewrite Ht'.
  assert (Hsh : exists k, (k = 0 \/ k = 1) /\ t = e - k /\
                  match e - -52 - t with
                  | 0 => Zpos m
                  | Zpos _ => Z.shiftl (Zpos m) (e - -52 - t)
                  | Zneg _ => 0
                  end = (Zpos m * 2 ^ k) * 2 ^ 52).
  { destruct Ht as [Ht|Ht].
    - exists 0. split; [left; reflexivity|]. split; [lia|].
      replace (e - -52 - t) with 52 by lia.
      rewrite Z.shiftl_mul_pow2 by lia. lia.
    - exists 1. split; [right; reflexivity|]. split; [lia|].
      replace (e - -52 - t) with 53 by lia.
      rewrite Z.shiftl_mul_pow2 by lia. lia. }
  destruct Hsh as (k & Hk & Htk & Hm'). rewrite Hm'.
  assert (Hnz : 2 ^ 52 <> 0) by lia.
  destruct (Z.div_eucl (Zpos m * 2 ^ k * 2 ^ 52) (2 ^ 52)) as [q r] eqn:Hqr.
  assert (Hq : q = Zpos m * 2 ^ k).
  { rewrite <- (Z.div_mul (Zpos m * 2 ^ k) (2 ^ 52) Hnz).
    unfold Z.div. rewrite Hqr. reflexivity. }
  assert (Hr : r = 0).
  { rewrite <- (Z.mod_mul (Zpos m * 2 ^ k) (2 ^ 52) Hnz).
    unfold Z.modulo. rewrite Hqr. reflexivity. }
  subst q r. change (new_location (2 ^ 52) 0) with loc_Exact.
  rewrite Htk.
  rewrite binary_round_aux_shift; [| lia | lia | cbn [Zdigits2]; fold d; lia].
  apply binary_round_aux_canonical. exact Hb.
Qed.

(** With source and target offset 0.0 and scaling 1.0 the rescaling formula
    returns its argument, except that a negative zero becomes positive. *)
Lemma rescale_identity (v : double) :
  valid_binary 53 1024 v = true ->
  rescale d_zero d_one d_zero d_one v
  = match v with S754_zero _ => S754_zero false | _ => v end.
Proof.
  intros Hv. unfold rescale. destruct v as [s|s| |s m e]; cbn [valid_binary] in Hv.
  - destruct s; reflexivity.
  - destruct s; reflexivity.
  - reflexivity.
  - rewrite d_mul_one by exact Hv.
    change (d_add (S754_finite s m e) d_zero) with (S754_finite s m e).
    change (d_sub (S754_finite s m e) d_zero) with (S754_finite s m e).
    apply d_div_one. exact Hv.
Qed.

(** ** Exact conversions *)

Lemma scaled_exact (s : bool) (m m' : positive) (e E c : Z) :
  E <= e -> 0 <= E + c -> Zpos m' = Zpos m * 2 ^ (e - E) ->
  scaled c (S754_finite s m' E) = scaled c (S754_finite s m e).
Proof.
  intros HE Hc Hm. cbn [scaled]. f_equal. rewrite Hm.
  rewrite <- Z.mul_assoc, <- Z.pow_add_r by lia. do 2 f_equal. lia.
Qed.

(** An integer of at most [prec] bits converts exactly. *)
Lemma float_of_Z_exact (t : numeric_type) (p : positive) :
  Zpos (digits2_pos p) <= prec t ->
  exists m e,
    float_of_Z t (Zpos p) = S754_finite false m e /\
    bounded (prec t) (emax t) m e = true /\
    e <= 0 /\ Zpos m = Zpos p * 2 ^ (0 - e) /\
    scaled 1074 (S754_finite false m e) = Zpos p * 2 ^ 1074.
Proof.
  intros Hd. unfold float_of_Z. cbn [binary_normalize].
  set (E := fexp (prec t) (emax t) (Zpos (digits2_pos p) + 0)).
  assert (HE : E <= 0 /\ E <= emax t - prec t /\ -1074 <= E).
  { unfold E, fexp, emin. destruct t; cbn [prec emax] in *; lia. }
  destruct (binary_round_exact (prec t) (emax t) false p 0) as (m & Hr & Hm & Hb);
    fold E; try lia.
  fold E in Hr, Hm, Hb.
  exists m, E. repeat split; try assumption; try lia.
  rewrite (scaled_exact false p m 0 E 1074) by lia.
  cbn [scaled cond_Zopp]. reflexivity.
Qed.

(** Widening a valid [float] to [double] is exact. *)
Lemma float_convert_double_exact (s : bool) (m : positive) (e : Z) :
  bounded 24 128 m e = true ->
  exists m' e',
    float_convert double_t (S754_finite s m e) = S754_finite s m' e' /\
    bounded 53 1024 m' e' = true /\
    scaled 1074 (S754_finite s m' e') = scaled 1074 (S754_finite s m e).
Proof.
  intros Hb. pose proof (bounded_canonical _ _ _ _ Hb) as [Hc He].
  pose proof (digits2_pos_bounds m) as _.
  assert (Hd : 0 < Zpos (digits2_pos m)) by lia.
  unfold fexp, emin in Hc.
  cbn [float_convert prec emax].
  set (E := fexp 53 1024 (Zpos (digits2_pos m) + e)).
  assert (HE : E <= e /\ E <= 1024 - 53 /\ -1074 <= E).
  { unfold E, fexp, emin. lia. }
  destruct (binary_round_exact 53 1024 s m e) as (m' & Hr & Hm & Hb');
    fold E; try lia.
  fold E in Hr, Hm, Hb'.
  exists m', E. repeat split; try assumption.
  apply (scaled_exact s m m' e E 1074); lia.
Qed.

(** Narrowing the [double] of an integer rounds like converting the integer
    directly. *)
Lemma float_convert_of_Z (p : positive) :
  Zpos (digits2_pos p) <= 53 ->
  float_convert float_t (float_of_Z double_t (Zpos p)) = float_of_Z float_t (Zpos p).
Proof.
  intros Hd.
  destruct (float_of_Z_exact double_t p Hd) as (m & e & Hf & _ & He & Hm & _).
  rewrite Hf. cbn [float_convert]. unfold float_of_Z. cbn [binary_normalize].
  replace e with (0 - (0 - e)) at 1 by lia.
  apply binary_round_shift; [lia | exact Hm].
Qed.

(** ** The range check on floating sources *)

Lemma float_to_int_bounds (S T : numeric_type) :
  is_float S = true ->
  SFsub (prec S) (emax S) (float_of_Z S 0) (float_of_Z S 1) = float_of_Z S (-1) /\
  SFadd (prec S) (emax S) (float_of_Z S (int_max T)) (float_of_Z S 1)
  = float_of_Z S (int_max T + 1) /\
  valid_binary (prec S) (emax S) (float_of_Z S (-1)) = true /\
  valid_binary (prec S) (emax S) (float_of_Z S (int_max T + 1)) = true /\
  finite_or_zero (float_of_Z S (-1)) = true /\
  finite_or_zero (float_of_Z S (int_max T + 1)) = true /\
  scaled 1074 (float_of_Z S (-1)) = - 2 ^ 1074 /\
  scaled 1074 (float_of_Z S (int_max T + 1)) = (int_max T + 1) * 2 ^ 1074.
Proof.
  intros HS. destruct S; try discriminate HS; destruct T; vm_compute; repeat split.
Qed.

End FloatFacts.

(** ** Conversion to [double] *)

Lemma numeric_cast_double_total (S : numeric_type) (s : value S) :
  numeric_cast S double_t s = cast_value (double_of S s).
Proof. destruct S; reflexivity. Qed.

Lemma to_double_eq (S : numeric_type) (s : value S) :
  to_double S s = double_of S s.
Proof. unfold to_double. rewrite numeric_cast_double_total. reflexivity. Qed.

(** ** The visitors on a buffer of another kind *)

Lemma visitor_image_cast_same (D : image_kind) (src : image D) :
  visitor_image_cast D (image_of D src) = Returned src.
Proof. simpl. rewrite image_kind_eq_dec_refl. reflexivity. Qed.

Lemma visitor_image_cast_so_same (D : image_kind) (o s : double) (src : image D) :
  visitor_image_cast_so D o s (image_of D src) = Returned src.
Proof. simpl. rewrite image_kind_eq_dec_refl. reflexivity. Qed.

Lemma visitor_image_cast_other (S D : image_kind) (src : image S) :
  S <> D ->
  visitor_image_cast D (image_of S src) = Returned (plain_cast D S src).
Proof.
  intros Hne. simpl.
  destruct (image_kind_eq_dec S D) as [e|n]; [contradiction | reflexivity].
Qed.

Lemma visitor_image_cast_so_other (S D : image_kind) (o s : double) (src : image S) :
  S <> D ->
  visitor_image_cast_so D o s (image_of S src)
  = Returned (rescaling_cast D S o s src).
Proof.
  intros Hne. simpl.
  destruct (image_kind_eq_dec S D) as [e|n]; [contradiction | reflexivity].
Qed.

Lemma plain_cast_shape (D S : image_kind) (src : image S) :
  let r := plain_cast D S src in
  width r = width src /\ height r = height src /\
  offset_ r = d_zero /\ scaling_ r = d_one /\ wf_image r.
Proof.
  apply (cast_loop_shape _ src (image_new D (width src) (height src))).
  apply image_new_wf.
Qed.

Lemma plain_cast_pixel (D S : image_kind) (src : image S) (x y : nat) :
  (x < width src)%nat -> (y < height src)%nat ->
  get_pixel (plain_cast D S src) x y
  = saturating_cast (pixel_type S) (pixel_type D) (get_pixel src x y).
Proof.
  intros Hx Hy. unfold plain_cast.
  apply cast_loop_pixel; [apply image_new_wf | assumption..].
Qed.

Lemma rescaling_cast_shape (D S : image_kind) (o s : double) (src : image S) :
  let r := rescaling_cast D S o s src in
  width r = width src /\ height r = height src /\
  offset_ r = o /\ scaling_ r = s /\ wf_image r.
Proof.
  apply (cast_loop_shape _ src
           (set_offset o (set_scaling s (image_new D (width src) (height src))))).
  apply (image_new_wf D).
Qed.

Lemma rescaling_cast_pixel (D S : image_kind) (o s : double) (src : image S)
    (x y : nat) :
  (x < width src)%nat -> (y < height src)%nat ->
  get_pixel (rescaling_cast D S o s src) x y
  = rescale_pixel (pixel_type S) (pixel_type D)
      (get_offset src) (get_scaling src) o s (get_pixel src x y).
Proof.
  intros Hx Hy. unfold rescaling_cast.
  apply cast_loop_pixel; [apply (image_new_wf D) | assumption..].
Qed.

(** ** The rescaling visitor *)

(** On a source buffer of a kind other than [D], the rescaling visitor
    returns a new [D] buffer whose offset and scaling are the requested
    ones and whose pixel at every coordinate is what the [try]/[catch]
    block stores for
    [((double(src(x,y)) * src_scaling + src_offset) - target_offset) / target_scaling]:
    the value of [numeric_cast], [numeric_limits<dst_type>::max()] on
    [positive_overflow] and [numeric_limits<dst_type>::min()] on
    [negative_overflow]. *)
Theorem rescaling_visitor_requantizes (S D : image_kind) (src : image S)
    (target_offset target_scaling : double) :
  S <> D ->
  exists dst : image D,
    visitor_image_cast_so D target_offset target_scaling (image_of S src)
    = Returned dst /\
    get_offset dst = target_offset /\
    get_scaling dst = target_scaling /\
    forall x y, (x < width src)%nat -> (y < height src)%nat ->
      get_pixel dst x y
      = saturating_cast double_t (pixel_type D)
          (d_div
             (d_sub
                (d_add (d_mul (double_of (pixel_type S) (get_pixel src x y))
                              (get_scaling src))
                       (get_offset src))
                target_offset)
             target_scaling).
Proof.
  intros Hne. exists (rescaling_cast D S target_offset target_scaling src).
  split; [apply visitor_image_cast_so_other; assumption|].
  destruct (rescaling_cast_shape D S target_offset target_scaling src)
    as (_ & _ & Ho & Hs & _).
  split; [exact Ho|]. split; [exact Hs|].
  intros x y Hx Hy. rewrite rescaling_cast_pixel by assumption.
  unfold rescale_pixel, rescale. rewrite to_double_eq. reflexivity.
Qed.

(** ** Identity and same-kind copies *)

(** C3. Casting a concrete buffer with offset 0.0 and scaling 1.0 to its own
    kind, with requested offset 0.0 and scaling 1.0, returns the input
    unchanged (pixel data, width, height, offset and scaling), whatever its
    kind and dimensions, through each of the entry points. *)
Theorem identity_cast (k : image_kind) (w h : nat) (d : list (pixel k)) :
  let im := mk_image w h d d_zero d_one in
  image_cast k (image_of k im) d_zero d_one = Returned im /\
  image_cast_concrete k k im d_zero d_one = Returned im /\
  image_cast_any (image_of k im) (dtype_of_kind k) d_zero d_one
  = Returned (image_of k im).
Proof.
  intros im.
  assert (H1 : image_cast k (image_of k im) d_zero d_one = Returned im).
  { unfold image_cast. simpl identity_guard. cbv iota.
    apply visitor_image_cast_same. }
  split; [exact H1|]. split.
  - unfold image_cast_concrete. simpl identity_guard. cbv iota.
    apply visitor_image_cast_same.
  - destruct k; unfold image_cast_any, dtype_of_kind; rewrite H1; reflexivity.
Qed.

(** C6. On a source buffer whose kind is already [D] the rescaling visitor
    returns the source itself, pixels and metadata, and the requested
    offset and scaling play no part in the result. *)
Theorem rescaling_visitor_same_kind_copies (D : image_kind) (src : image D)
    (target_offset target_scaling : double) :
  visitor_image_cast_so D target_offset target_scaling (image_of D src)
  = Returned src /\
  forall o' s' : double,
    visitor_image_cast_so D o' s' (image_of D src)
    = visitor_image_cast_so D target_offset target_scaling (image_of D src).
Proof.
  split; [apply visitor_image_cast_so_same|].
  intros o' s'. rewrite !visitor_image_cast_so_same. reflexivity.
Qed.

(** ** Failures *)

(** C4. A null source fails with [InvalidInput] for every destination kind
    and every offset and scaling, in both visitors, the per-type entry point
    and the dispatcher; every source fails with [InvalidInput] when the
    target is the null format. A thrown outcome carries no buffer. *)
Theorem null_rejection :
  (forall (D : image_kind) (o s : double),
     visitor_image_cast D image_null = Thrown InvalidInput /\
     visitor_image_cast_so D o s image_null = Thrown InvalidInput /\
     image_cast D image_null o s = Thrown InvalidInput /\
     image_cast_any image_null (dtype_of_kind D) o s = Thrown InvalidInput) /\
  (forall (data : image_any) (o s : double),
     image_cast_any data image_dtype_null o s = Thrown InvalidInput).
Proof.
  split.
  - intros D o s.
    assert (H : image_cast D image_null o s = Thrown InvalidInput).
    { unfold image_cast.
      destruct (identity_guard _ _ _ _); reflexivity. }
    repeat split; try reflexivity; try exact H.
    destruct D; unfold image_cast_any, dtype_of_kind; rewrite H; reflexivity.
  - intros data o s. reflexivity.
Qed.

Lemma image_cast_not_unknown (D : image_kind) (data : image_any) (o s : double) :
  outcome_map (image_of D) (image_cast D data o s) <> Thrown UnknownFormat.
Proof.
  unfold image_cast.
  destruct data as [|S im]; simpl;
    destruct (identity_guard _ _ _ _); simpl; try discriminate;
    destruct (image_kind_eq_dec S D); discriminate.
Qed.

(** C8. The dispatcher fails with [UnknownFormat] exactly when the target
    identifier is none of rgba8, gray8, gray16, gray32f and null: it does so
    on every other identifier, and never on one of those five. *)
Theorem unknown_format_iff_unrecognized (data : image_any) (type : image_dtype)
    (o s : double) :
  image_cast_any data type o s = Thrown UnknownFormat <-> recognized type = false.
Proof.
  split.
  - intros H. destruct type; simpl in *; try reflexivity;
      try (exfalso; revert H; apply image_cast_not_unknown).
    discriminate H.
  - destruct type; simpl; try discriminate. reflexivity.
Qed.

(** ** Comparison with the identity constants *)

(** [x == 0.0] holds on the two zeros and on nothing else. *)
Lemma d_eq_zero (x : double) :
  d_eq x d_zero = true <-> x = S754_zero false \/ x = S754_zero true.
Proof.
  split.
  - unfold d_eq, SFeqb, d_zero.
    destruct x as [s|s| |s m e]; cbn [SFcompare]; intros H.
    + destruct s; auto.
    + destruct s; discriminate H.
    + discriminate H.
    + destruct s; discriminate H.
  - intros [->| ->]; reflexivity.
Qed.

(** [x == 1.0] holds on the float [1.0] and on nothing else. *)
Lemma d_eq_one (x : double) : d_eq x d_one = true <-> x = d_one.
Proof.
  split.
  - unfold d_eq, SFeqb, d_one.
    destruct x as [s|s| |s m e]; cbn [SFcompare]; intros H;
      try discriminate H; try (destruct s; discriminate H).
    destruct s; [discriminate H|].
    destruct (Z.compare_spec e (-52)) as [He|He|He]; try discriminate H.
    destruct (Pos.compare_cont Eq m 4503599627370496) eqn:Hm;
      try discriminate H.
    apply Pos.compare_eq in Hm. subst. reflexivity.
  - intros ->. reflexivity.
Qed.

(** ** Choice of the visitor *)

Lemma identity_guard_true (offset scaling src_offset src_scaling : double) :
  identity_guard offset scaling src_offset src_scaling = true <->
  (offset = S754_zero false \/ offset = S754_zero true) /\ scaling = d_one /\
  (src_offset = S754_zero false \/ src_offset = S754_zero true) /\
  src_scaling = d_one.
Proof.
  unfold identity_guard. rewrite !andb_true_iff, !d_eq_zero, !d_eq_one. tauto.
Qed.

(** C5. The per-type entry point, on the variant and on each concrete
    buffer type, runs the plain visitor when [offset == 0.0],
    [scaling == 1.0], [src.offset == 0.0] and [src.scaling == 1.0] all hold,
    and the rescaling visitor built with [(offset, scaling)] in every other
    case. The four comparisons are exact: they hold when the offsets are a
    zero and the scalings are the float 1.0, and for no other values. *)
Theorem guard_selects_visitor (T S : image_kind) (data : image_any)
    (src : image S) (offset scaling : double) :
  let plain (src_offset src_scaling : double) :=
    d_eq offset d_zero && d_eq scaling d_one
    && d_eq src_offset d_zero && d_eq src_scaling d_one in
  image_cast T data offset scaling
  = (if plain (any_get_offset data) (any_get_scaling data)
     then visitor_image_cast T data
     else visitor_image_cast_so T offset scaling data) /\
  image_cast_concrete T S src offset scaling
  = (if plain (get_offset src) (get_scaling src)
     then visitor_image_cast T (image_of S src)
     else visitor_image_cast_so T offset scaling (image_of S src)) /\
  forall src_offset src_scaling : double,
    plain src_offset src_scaling = true <->
    (offset = S754_zero false \/ offset = S754_zero true) /\
    scaling = d_one /\
    (src_offset = S754_zero false \/ src_offset = S754_zero true) /\
    src_scaling = d_one.
Proof.
  intros plain. split; [reflexivity|]. split; [reflexivity|].
  intros src_offset src_scaling. apply identity_guard_true.
Qed.

(** ** Dimensions *)

(** C7. Every conversion of a non-null source succeeds with a buffer of the
    width and height of the input, in both visitors, the per-type entry
    point and the dispatcher; the grid of the result is complete when that
    of the input is. *)
Theorem dimensions_preserved (S D : image_kind) (src : image S) (o s : double) :
  let same_shape (r : image D) :=
    width r = width src /\ height r = height src /\
    (wf_image src -> wf_image r) in
  (exists r, visitor_image_cast D (image_of S src) = Returned r /\ same_shape r) /\
  (exists r, visitor_image_cast_so D o s (image_of S src) = Returned r /\
             same_shape r) /\
  (exists r, image_cast D (image_of S src) o s = Returned r /\ same_shape r) /\
  (exists r, image_cast_any (image_of S src) (dtype_of_kind D) o s
             = Returned (image_of D r) /\ same_shape r).
Proof.
  intros same_shape.
  assert (Hp : exists r, visitor_image_cast D (image_of S src) = Returned r /\
                         same_shape r).
  { destruct (image_kind_eq_dec S D) as [e|n].
    - subst D. exists src. split; [apply visitor_image_cast_same|].
      repeat split; trivial.
    - exists (plain_cast D S src).
      split; [apply visitor_image_cast_other; assumption|].
      destruct (plain_cast_shape D S src) as (Hw & Hh & _ & _ & Hwf).
      repeat split; trivial. }
  assert (Hr : exists r, visitor_image_cast_so D o s (image_of S src) = Returned r /\
                         same_shape r).
  { destruct (image_kind_eq_dec S D) as [e|n].
    - subst D. exists src. split; [apply visitor_image_cast_so_same|].
      repeat split; trivial.
    - exists (rescaling_cast D S o s src).
      split; [apply visitor_image_cast_so_other; assumption|].
      destruct (rescaling_cast_shape D S o s src) as (Hw & Hh & _ & _ & Hwf).
      repeat split; trivial. }
  assert (Hc : exists r, image_cast D (image_of S src) o s = Returned r /\
                         same_shape r).
  { unfold image_cast. destruct (identity_guard _ _ _ _); assumption. }
  repeat split; try assumption.
  destruct Hc as (r & Hr1 & Hr2). exists r. split; [|exact Hr2].
  destruct D; unfold image_cast_any, dtype_of_kind; rewrite Hr1; reflexivity.
Qed.

(** ** The two visitors under the identity parameters *)

Section Agreement.
Local Open Scope Z_scope.

(** The range check and truncation of a floating source, read on its
    value. *)
Lemma float_to_int_scaled (S T : numeric_type) (f : spec_float) :
  is_float S = true ->
  valid_binary (prec S) (emax S) f = true -> finite_or_zero f = true ->
  float_to_int S T f
  = if scaled 1074 f <=? - 2 ^ 1074 then negative_overflow
    else if (int_max T + 1) * 2 ^ 1074 <=? scaled 1074 f then positive_overflow
    else cast_value (Z.quot (scaled 1074 f) (2 ^ 1074)).
Proof.
  intros HS Hv Hf.
  destruct (float_to_int_bounds S T HS)
    as (Hlo & Hhi & Vlo & Vhi & Flo & Fhi & Slo & Shi).
  assert (Hp : 0 < prec S) by (destruct S; cbn [prec]; lia).
  assert (Hm : - 1074 <= emin (prec S) (emax S))
    by (destruct S; unfold emin; cbn [prec emax]; lia).
  unfold float_to_int. rewrite Hlo, Hhi.
  rewrite (SFleb_scaled (prec S) (emax S) 1074 Hp Hm f) by assumption.
  rewrite (SFleb_scaled (prec S) (emax S) 1074 Hp Hm _ f) by assumption.
  rewrite Slo, Shi.
  destruct (scaled 1074 f <=? - 2 ^ 1074); [reflexivity|].
  destruct ((int_max T + 1) * 2 ^ 1074 <=? scaled 1074 f); [reflexivity|].
  rewrite (float_trunc_scaled 1074 f).
  - destruct f; try reflexivity; discriminate Hf.
  - lia.
  - destruct f as [| | |s m e]; try exact I.
    cbn [valid_binary] in Hv.
    apply bounded_canonical in Hv. destruct Hv as [Hc _].
    unfold fexp in Hc. lia.
Qed.

(** On a finite floating source the [try]/[catch] block stores, in an
    unsigned destination, the integer part of the value clamped to
    [0 .. max]: the unsigned destinations saturate and never wrap. *)
Lemma float_to_int_clamps (S T : numeric_type) (f : spec_float) :
  is_float S = true ->
  valid_binary (prec S) (emax S) f = true -> finite_or_zero f = true ->
  match float_to_int S T f with
  | cast_value v => v
  | negative_overflow => 0
  | positive_overflow => int_max T
  end = Z.max 0 (Z.min (int_max T) (Z.quot (scaled 1074 f) (2 ^ 1074))).
Proof.
  intros HS Hv Hf. rewrite float_to_int_scaled by assumption.
  assert (HP : 0 < 2 ^ 1074) by (apply Z.pow_pos_nonneg; lia).
  assert (Hmax : 0 <= int_max T) by (destruct T; cbn [int_max]; lia).
  generalize dependent (2 ^ 1074). intros P HP.
  generalize (scaled 1074 f). intros x.
  pose proof (Z.quot_rem' x P) as Hqr.
  destruct (Z.leb_spec x (- P)) as [Hlo|Hlo].
  - assert (x ÷ P <= -1) by (apply Z.quot_le_upper_bound; lia). lia.
  - destruct (Z.leb_spec ((int_max T + 1) * P) x) as [Hhi|Hhi].
    + assert (int_max T + 1 <= x ÷ P) by (apply Z.quot_le_lower_bound; lia).
      lia.
    + destruct (Z_lt_le_dec x 0) as [Hneg|Hpos].
      * pose proof (Z.rem_bound_pos_neg x P HP ltac:(lia)).
        assert (x ÷ P = 0) by nia. lia.
      * pose proof (Z.rem_bound_pos_pos x P HP Hpos).
        assert (0 <= x ÷ P <= int_max T) by nia. lia.
Qed.

Lemma digits_of_uint32 (p : positive) :
  Zpos p <= 4294967295 -> Zpos (digits2_pos p) <= 32.
Proof.
  intros Hp. pose proof (digits2_pos_bounds p) as [Hlo _].
  assert (Zpos (digits2_pos p) - 1 < 32); [|lia].
  apply (Z.pow_lt_mono_r_iff 2); lia.
Qed.

(** An unsigned pixel cast to an unsigned type through [double]. *)
Lemma via_double_int_int (T : numeric_type) (v : Z) :
  0 <= v <= 4294967295 ->
  float_to_int double_t T
    (rescale d_zero d_one d_zero d_one (float_of_Z double_t v))
  = if int_max T <? v then positive_overflow else cast_value v.
Proof.
  intros Hv. destruct v as [|p|p]; try lia.
  - destruct T; reflexivity.
  - pose proof (digits_of_uint32 p ltac:(lia)) as Hd.
    destruct (float_of_Z_exact double_t p ltac:(cbn [prec]; lia))
      as (m & e & Hf & Hb & _ & _ & Hs).
    rewrite Hf, rescale_identity by exact Hb.
    rewrite float_to_int_scaled by (reflexivity || exact Hb).
    rewrite Hs.
    assert (HP : 0 < 2 ^ 1074) by (apply Z.pow_pos_nonneg; lia).
    rewrite Z.quot_mul by lia.
    generalize dependent (2 ^ 1074). intros P _ HP.
    assert (Hmax : 0 <= int_max T) by (destruct T; cbn [int_max]; lia).
    destruct (Z.leb_spec (Zpos p * P) (- P)); [nia|].
    destruct (Z.leb_spec ((int_max T + 1) * P) (Zpos p * P));
      destruct (Z.ltb_spec (int_max T) (Zpos p)); try reflexivity; nia.
Qed.

(** An unsigned pixel cast to [float] through [double]. *)
Lemma via_double_int_float (v : Z) :
  0 <= v <= 4294967295 ->
  float_to_float double_t float_t
    (rescale d_zero d_one d_zero d_one (float_of_Z double_t v))
  = cast_value (float_of_Z float_t v).
Proof.
  intros Hv. destruct v as [|p|p]; try lia.
  - reflexivity.
  - pose proof (digits_of_uint32 p ltac:(lia)) as Hd.
    destruct (float_of_Z_exact double_t p ltac:(cbn [prec]; lia))
      as (m & e & Hf & Hb & He & _ & _).
    rewrite <- (float_convert_of_Z p) by lia.
    rewrite Hf, rescale_identity by exact Hb.
    unfold float_to_float.
    change (prec float_t <? prec double_t) with true. cbv iota.
    change (float_convert double_t (SFopp (float_max float_t)))
      with (S754_finite true 9007198717870080 75).
    change (float_convert double_t (float_max float_t))
      with (S754_finite false 9007198717870080 75).
    cbn [SFltb SFcompare].
    destruct (Z.compare_spec 75 e) as [H|H|H]; try lia. reflexivity.
Qed.

(** A [float] pixel cast to an unsigned type through [double]. *)
Lemma via_double_float_int (T : numeric_type) (f : spec_float) :
  valid_binary 24 128 f = true ->
  float_to_int double_t T
    (rescale d_zero d_one d_zero d_one (float_convert double_t f))
  = float_to_int float_t T f.
Proof.
  intros Hv. destruct f as [s|s| |s m e].
  - destruct s, T; reflexivity.
  - destruct s, T; reflexivity.
  - destruct T; reflexivity.
  - cbn [valid_binary] in Hv.
    destruct (float_convert_double_exact s m e Hv) as (m' & e' & Hf & Hb & Hs).
    rewrite Hf, rescale_identity by exact Hb.
    rewrite !float_to_int_scaled by (reflexivity || assumption).
    rewrite Hs. reflexivity.
Qed.

(** Pixel by pixel, requantizing under offset 0.0 and scaling 1.0 on both
    sides is the plain saturating cast. *)
Lemma rescale_pixel_identity (S D : image_kind) (v : pixel S) :
  S <> D -> valid_value (pixel_type S) v ->
  rescale_pixel (pixel_type S) (pixel_type D) d_zero d_one d_zero d_one v
  = saturating_cast (pixel_type S) (pixel_type D) v.
Proof.
  intros Hne Hv. unfold rescale_pixel, saturating_cast. rewrite to_double_eq.
  destruct S, D; try contradiction; cbn [pixel_type] in *;
    cbn [valid_value int_max] in Hv;
    cbn [numeric_cast cast_of_float cast_of_int double_of int_max];
    try (rewrite via_double_int_int by lia);
    try (rewrite via_double_int_float by lia);
    try (rewrite via_double_float_int by exact Hv);
    try reflexivity.
  all: cbn [int_max andb Z.ltb Z.compare Pos.compare Pos.compare_cont].
  all: try reflexivity.
  all: match goal with
       | |- context [(?a <? ?b)] =>
           destruct (Z.ltb_spec a b); [lia | reflexivity]
       end.
Qed.

Lemma valid_get_pixel {k : image_kind} (im : image k) (x y : nat) :
  valid_pixels im -> valid_value (pixel_type k) (get_pixel im x y).
Proof.
  intros Hv. unfold get_pixel, valid_pixels in *.
  rewrite list_lookup_total_alt.
  destruct (pData im !! (y * width im + x)%nat) as [v|] eqn:E.
  - cbn. rewrite Forall_lookup in Hv. apply (Hv _ _ E).
  - cbn. destruct k; cbn; try lia; reflexivity.
Qed.

(** On a source buffer of a kind other than the destination, with source
    offset [+0.0] and scaling 1.0, the rescaling visitor built with offset
    [+0.0] and scaling 1.0 returns the very buffer the plain visitor
    returns: same dimensions, same pixels, same metadata. *)
Theorem plain_and_rescaling_visitors_agree (S D : image_kind) (src : image S) :
  S <> D -> valid_pixels src ->
  get_offset src = d_zero -> get_scaling src = d_one ->
  visitor_image_cast D (image_of S src)
  = visitor_image_cast_so D d_zero d_one (image_of S src) /\
  image_cast D (image_of S src) d_zero d_one
  = visitor_image_cast_so D d_zero d_one (image_of S src).
Proof.
  intros Hne Hv Ho Hs.
  assert (H : visitor_image_cast D (image_of S src)
              = visitor_image_cast_so D d_zero d_one (image_of S src)).
  { rewrite visitor_image_cast_other, visitor_image_cast_so_other by assumption.
    f_equal. unfold plain_cast, rescaling_cast. rewrite Ho, Hs.
    change (set_offset d_zero
              (set_scaling d_one (image_new D (width src) (height src))))
      with (image_new D (width src) (height src)).
    apply cast_loop_ext. intros x y _ _. symmetry.
    apply rescale_pixel_identity; [assumption|].
    apply valid_get_pixel. assumption. }
  split; [exact H|].
  unfold image_cast. destruct (identity_guard _ _ _ _); [exact H | reflexivity].
Qed.

(** The guard compares with [==], which a negative zero passes: there the
    entry point still runs the plain visitor and the result carries the
    default offset [+0.0], where the rescaling visitor would have recorded
    the requested [-0.0] next to the same pixels. *)
Example negative_zero_offset_passes_guard :
  let src := @mk_image gray16 1 1 [300] d_zero d_one in
  image_cast gray8 (image_of gray16 src) (S754_zero true) d_one
  = Returned (@mk_image gray8 1 1 [255] d_zero d_one) /\
  visitor_image_cast_so gray8 (S754_zero true) d_one (image_of gray16 src)
  = Returned (@mk_image gray8 1 1 [255] (S754_zero true) d_one).
Proof. split; reflexivity. Qed.

End Agreement.

(** ** Colour sources *)

(** C9, as amended. When an rgba8 buffer is converted to a grey kind [D],
    every destination pixel is computed from the whole packed 32-bit word of
    the source pixel taken as one integer, and no channel is extracted. The
    plain visitor stores the saturating cast of the word: the smaller of the
    word and the maximum in gray8 and gray16, the nearest [float] in
    gray32f. The rescaling visitor stores the numeric cast of
    [((double(word) * src_scaling + src_offset) - offset) / scaling], with
    the maximum of the destination when the cast overflows upward and, in
    gray8 and gray16, 0 when it overflows downward. *)
Theorem rgba8_word_cast_as_integer (D : image_kind) (src : image rgba8)
    (offset scaling : double) :
  D <> rgba8 ->
  (exists dst : image D,
     visitor_image_cast D (image_of rgba8 src) = Returned dst /\
     forall x y, (x < width src)%nat -> (y < height src)%nat ->
       get_pixel dst x y
       = saturating_cast uint32_t (pixel_type D) (get_pixel src x y)) /\
  (forall word : Z,
     saturating_cast uint32_t uint8_t word = Z.min word 255 /\
     saturating_cast uint32_t uint16_t word = Z.min word 65535 /\
     saturating_cast uint32_t float_t word = float_of_Z float_t word) /\
  (exists dst : image D,
     visitor_image_cast_so D offset scaling (image_of rgba8 src) = Returned dst /\
     forall x y, (x < width src)%nat -> (y < height src)%nat ->
       match
         numeric_cast double_t (pixel_type D)
           (d_div
              (d_sub
                 (d_add (d_mul (float_of_Z double_t (get_pixel src x y))
                               (get_scaling src))
                        (get_offset src))
                 offset)
              scaling)
       with
       | cast_value c => get_pixel dst x y = c
       | positive_overflow => get_pixel dst x y = limits_max (pixel_type D)
       | negative_overflow =>
           D <> gray32f -> raw (pixel_type D) (get_pixel dst x y) = 0%Z
       end).
Proof.
  intros Hne. assert (Hne' : rgba8 <> D) by congruence. split; [|split].
  - exists (plain_cast D rgba8 src).
    split; [apply visitor_image_cast_other; assumption|].
    intros x y Hx Hy. apply plain_cast_pixel; assumption.
  - intros word. unfold saturating_cast.
    cbn [numeric_cast cast_of_int int_max andb Z.ltb Z.compare Pos.compare
         Pos.compare_cont catch_overflow].
    split; [|split]; try reflexivity.
    + destruct (Z.ltb_spec 255 word);
        cbn [catch_overflow limits_max int_max]; lia.
    + destruct (Z.ltb_spec 65535 word);
        cbn [catch_overflow limits_max int_max]; lia.
  - exists (rescaling_cast D rgba8 offset scaling src).
    split; [apply visitor_image_cast_so_other; assumption|].
    intros x y Hx Hy. rewrite rescaling_cast_pixel by assumption.
    unfold rescale_pixel, saturating_cast. rewrite to_double_eq.
    cbn [pixel_type double_of]. fold (pixel_type D).
    change (rescale (get_offset src) (get_scaling src) offset scaling
              (float_of_Z double_t (get_pixel src x y)))
      with (d_div
              (d_sub
                 (d_add (d_mul (float_of_Z double_t (get_pixel src x y))
                               (get_scaling src))
                        (get_offset src))
                 offset)
              scaling).
    destruct (numeric_cast double_t (pixel_type D) _); cbn [catch_overflow];
      try reflexivity.
    intros HD. destruct D; try contradiction; reflexivity.
Qed.

(** An opaque red pixel, [0xFF0000FF], becomes 255 in a gray8 buffer: the
    word exceeds the 8-bit range and saturates. *)
Example rgba8_red_to_gray8 :
  visitor_image_cast gray8
    (image_of rgba8 (@mk_image rgba8 1 1 [4278190335%Z] d_zero d_one))
  = Returned (@mk_image gray8 1 1 [255%Z] d_zero d_one).
Proof. reflexivity. Qed.

(** ** Saturation *)

(** C1, at the failing input. A gray8 pixel 0 requantized to gray32f under
    the target offset 1e39 gives the intermediate value -1e39, below the
    least [float]; [numeric_cast] throws [negative_overflow] and the handler
    stores [numeric_limits<float>::min()], the positive value [2^-126], not
    the least [float]. *)
Theorem negative_overflow_to_float_stores_min_normal :
  let big := float_of_Z double_t (10 ^ 39) in
  let src := @mk_image gray8 1 1 [0%Z] d_zero d_one in
  let dst := @mk_image gray32f 1 1 [S754_finite false 8388608 (-149)] big d_one in
  numeric_cast double_t float_t
    (rescale d_zero d_one big d_one (to_double uint8_t 0%Z))
  = negative_overflow /\
  visitor_image_cast_so gray32f big d_one (image_of gray8 src) = Returned dst /\
  image_cast_any (image_of gray8 src) image_dtype_gray32f big d_one
  = Returned (image_of gray32f dst) /\
  limits_min float_t = S754_finite false 8388608 (-149) /\
  limits_lowest float_t = S754_finite true 16777215 104.
Proof. vm_compute. repeat split. Qed.

(** C2, at the failing input. The rescaling visitor with target offset
    1e39 and scaling 1.0 on a 1x1 gray8 buffer holding 0 (source offset 0.0,
    scaling 1.0) returns a gray32f buffer with the requested metadata, but
    its pixel is not the saturating cast of the requantized value: that
    value, -1e39, lies below the least [float], and the pixel stored is the
    positive [2^-126]. *)
Theorem rescaling_visitor_float_pixel_not_saturated :
  let big := float_of_Z double_t (10 ^ 39) in
  let src := @mk_image gray8 1 1 [0%Z] d_zero d_one in
  let requantized :=
    d_div
      (d_sub
         (d_add (d_mul (double_of uint8_t (get_pixel src 0 0))
                       (get_scaling src))
                (get_offset src))
         big)
      d_one in
  SFltb requantized (float_convert double_t (limits_lowest float_t)) = true /\
  exists dst : image gray32f,
    visitor_image_cast_so gray32f big d_one (image_of gray8 src)
    = Returned dst /\
    get_offset dst = big /\ get_scaling dst = d_one /\
    get_pixel dst 0 0 = S754_finite false 8388608 (-149) /\
    get_pixel dst 0 0 <> limits_lowest float_t.
Proof.
  intros big src requantized. split; [vm_compute; reflexivity|].
  exists (@mk_image gray32f 1 1 [S754_finite false 8388608 (-149)] big d_one).
  split; [vm_compute; reflexivity|].
  split; [reflexivity|]. split; [reflexivity|].
  split; [reflexivity|]. vm_compute. discriminate.
Qed.

(** * Further properties of the visitors *)

(** ** The grid the loops build *)

Lemma cell_of_index (w h i : nat) :
  (i < h * w)%nat ->
  (i mod w < w)%nat /\ (i / w < h)%nat /\ (i / w * w + i mod w = i)%nat.
Proof.
  intros Hi. assert (Hw : w <> 0%nat) by lia.
  pose proof (Nat.mod_upper_bound i w Hw) as Hm.
  pose proof (Nat.div_mod i w Hw) as Hd.
  split; [exact Hm|]. split; [|lia].
  apply Nat.Div0.div_lt_upper_bound. lia.
Qed.

(** The grid after the two loops, cell by cell in storage order. *)
Lemma cast_loop_data {T0 T1 : image_kind} (conv : pixel T1 -> pixel T0)
    (src : image T1) (dst : image T0) :
  wf_image dst ->
  pData (cast_loop conv src dst)
  = (fun i => conv (get_pixel src (i mod width dst) (i / width dst)))
      <$> seq 0 (height dst * width dst).
Proof.
  intros Hwf.
  destruct (cast_loop_written conv src dst Hwf) as (_ & _ & _ & _ & Hl & Hp).
  apply list_eq. intros i. rewrite list_lookup_fmap.
  destruct (decide (i < height dst * width dst)%nat) as [Hi|Hi].
  - destruct (cell_of_index _ _ _ Hi) as (Hx & Hy & He).
    rewrite lookup_seq_lt by exact Hi. cbn.
    rewrite <- He at 1. apply Hp; [exact Hx | left; exact Hy].
  - rewrite lookup_seq_ge by lia. cbn.
    apply lookup_ge_None_2. rewrite Hl.
    unfold wf_image in Hwf. lia.
Qed.

Lemma image_eta {k : image_kind} (a : image k) (w h : nat)
    (d : list (pixel k)) (o s : double) :
  width a = w -> height a = h -> pData a = d ->
  offset_ a = o -> scaling_ a = s -> a = mk_image w h d o s.
Proof. destruct a; cbn; intros; subst; reflexivity. Qed.

(** Reading a complete grid cell by cell in storage order gives the grid. *)
Lemma fmap_cells {T1 : image_kind} {B : Type} (f : pixel T1 -> B)
    (src : image T1) :
  wf_image src ->
  (fun i => f (get_pixel src (i mod width src) (i / width src)))
    <$> seq 0 (height src * width src)
  = f <$> pData src.
Proof.
  intros Hwf. unfold wf_image in Hwf. apply list_eq. intros i.
  rewrite !list_lookup_fmap.
  destruct (decide (i < height src * width src)%nat) as [Hi|Hi].
  - destruct (cell_of_index _ _ _ Hi) as (_ & _ & He).
    rewrite lookup_seq_lt by exact Hi. cbn. unfold get_pixel. rewrite He.
    rewrite list_lookup_lookup_total_lt by lia. reflexivity.
  - rewrite lookup_seq_ge by lia.
    rewrite (lookup_ge_None_2 (pData src)) by lia. reflexivity.
Qed.

Lemma plain_cast_map (D S : image_kind) (src : image S) :
  wf_image src ->
  plain_cast D S src
  = mk_image (width src) (height src)
      (saturating_cast (pixel_type S) (pixel_type D) <$> pData src)
      d_zero d_one.
Proof.
  intros Hwf.
  destruct (plain_cast_shape D S src) as (Hw & Hh & Ho & Hs & _).
  apply image_eta; try assumption.
  unfold plain_cast. rewrite cast_loop_data by apply image_new_wf.
  cbn [image_new width height]. apply (fmap_cells _ src Hwf).
Qed.

Lemma rescaling_cast_map (D S : image_kind) (offset scaling : double)
    (src : image S) :
  wf_image src ->
  rescaling_cast D S offset scaling src
  = mk_image (width src) (height src)
      (rescale_pixel (pixel_type S) (pixel_type D)
         (get_offset src) (get_scaling src) offset scaling <$> pData src)
      offset scaling.
Proof.
  intros Hwf.
  destruct (rescaling_cast_shape D S offset scaling src)
    as (Hw & Hh & Ho & Hs & _).
  apply image_eta; try assumption.
  unfold rescaling_cast. rewrite cast_loop_data by apply (image_new_wf D).
  cbn [image_new set_offset set_scaling width height].
  apply (fmap_cells _ src Hwf).
Qed.

(** X1. On a complete source buffer of another kind, the plain visitor
    returns the buffer of the same width and height whose grid is the
    saturating cast mapped over the source grid, with offset 0.0 and scaling
    1.0 whatever the metadata of the source. *)
Theorem plain_visitor_maps_pixels (S D : image_kind) (src : image S) :
  S <> D -> wf_image src ->
  visitor_image_cast D (image_of S src)
  = Returned
      (mk_image (width src) (height src)
         (saturating_cast (pixel_type S) (pixel_type D) <$> pData src)
         d_zero d_one).
Proof.
  intros Hne Hwf. rewrite visitor_image_cast_other by assumption.
  rewrite plain_cast_map by assumption. reflexivity.
Qed.

(** X2. The same for the rescaling visitor: the grid holds, for each source
    pixel in order, what the [try]/[catch] block stores for
    [((double(v) * src_scaling + src_offset) - offset) / scaling] (the value
    of [numeric_cast], [numeric_limits<dst_type>::max()] on
    [positive_overflow], [numeric_limits<dst_type>::min()] on
    [negative_overflow]), and the metadata are the requested offset and
    scaling. *)
Theorem rescaling_visitor_maps_pixels (S D : image_kind) (src : image S)
    (offset scaling : double) :
  S <> D -> wf_image src ->
  visitor_image_cast_so D offset scaling (image_of S src)
  = Returned
      (mk_image (width src) (height src)
         (rescale_pixel (pixel_type S) (pixel_type D)
            (get_offset src) (get_scaling src) offset scaling <$> pData src)
         offset scaling).
Proof.
  intros Hne Hwf. rewrite visitor_image_cast_so_other by assumption.
  rewrite rescaling_cast_map by assumption. reflexivity.
Qed.

(** X3. The loops overwrite every cell of the destination: whatever the
    freshly allocated grid holds, the buffer they build is the same. *)
Theorem cast_loop_ignores_initial_contents {T0 T1 : image_kind}
    (conv : pixel T1 -> pixel T0) (src : image T1) (w h : nat)
    (o s : double) (junk1 junk2 : list (pixel T0)) :
  length junk1 = (h * w)%nat -> length junk2 = (h * w)%nat ->
  cast_loop conv src (mk_image w h junk1 o s)
  = cast_loop conv src (mk_image w h junk2 o s).
Proof.
  intros H1 H2.
  assert (Hgen : forall junk, length junk = (h * w)%nat ->
            cast_loop conv src (mk_image w h junk o s)
            = mk_image w h
                ((fun i => conv (get_pixel src (i mod w) (i / w)))
                   <$> seq 0 (h * w)) o s).
  { intros junk Hj.
    assert (Hwf : wf_image (@mk_image T0 w h junk o s)) by exact Hj.
    destruct (cast_loop_shape conv src _ Hwf) as (Hw & Hh & Ho & Hs & _).
    apply image_eta; try assumption.
    apply (cast_loop_data conv src _ Hwf). }
  rewrite (Hgen junk1 H1), (Hgen junk2 H2). reflexivity.
Qed.

(** ** What the saturating cast stores in an unsigned pixel *)

Section Unsigned.
Local Open Scope Z_scope.

Lemma cast_of_int_min (S T : numeric_type) (v : Z) :
  is_float S = false -> is_float T = false -> 0 <= v <= int_max S ->
  raw T (catch_overflow T (cast_of_int S T v)) = Z.min v (int_max T).
Proof.
  intros HS HT Hv.
  destruct S; try discriminate HS; destruct T; try discriminate HT;
    cbn [int_max] in Hv;
    cbn [cast_of_int int_max raw andb Z.ltb Z.compare
         Pos.compare Pos.compare_cont];
    try (cbn [catch_overflow]; lia);
    match goal with
    | |- context [(?a <? ?b)] =>
        destruct (Z.ltb_spec a b); cbn [catch_overflow limits_max int_max]; lia
    end.
Qed.

(** X4. Between unsigned types the stored value is the smaller of the
    source value and the maximum of the destination: widening keeps the
    value, narrowing clamps it, and nothing wraps. *)
Theorem unsigned_cast_is_min (S T : numeric_type) (v : value S) :
  is_float S = false -> is_float T = false -> valid_value S v ->
  raw T (saturating_cast S T v) = Z.min (raw S v) (int_max T).
Proof.
  intros HS HT Hv. unfold saturating_cast.
  destruct S; try discriminate HS; cbn [numeric_cast raw];
    apply cast_of_int_min; trivial.
Qed.

Lemma float_to_int_infinity (S T : numeric_type) (s : bool) :
  is_float S = true ->
  float_to_int S T (S754_infinity s)
  = if s then negative_overflow else positive_overflow.
Proof.
  intros HS.
  destruct S; try discriminate HS; destruct T, s; reflexivity.
Qed.

Lemma float_to_int_nan (S T : numeric_type) :
  is_float S = true -> float_to_int S T S754_nan = cast_value (nan_to_int T).
Proof. intros HS. destruct S; try discriminate HS; destruct T; reflexivity. Qed.

Lemma float_to_int_stored (S T : numeric_type) (f : spec_float) :
  is_float S = true -> valid_binary (prec S) (emax S) f = true ->
  match float_to_int S T f with
  | cast_value v => v
  | negative_overflow => 0
  | positive_overflow => int_max T
  end
  = match f with
    | S754_nan => nan_to_int T
    | S754_infinity s => if s then 0 else int_max T
    | _ => Z.max 0 (Z.min (int_max T) (float_trunc f))
    end.
Proof.
  intros HS Hv.
  assert (Hfin : finite_or_zero f = true ->
            match float_to_int S T f with
            | cast_value v => v
            | negative_overflow => 0
            | positive_overflow => int_max T
            end = Z.max 0 (Z.min (int_max T) (float_trunc f))).
  { intros Hf. rewrite float_to_int_clamps by assumption.
    rewrite <- (float_trunc_scaled 1074 f); [reflexivity | lia |].
    destruct f as [| | |s m e]; try exact I.
    cbn [valid_binary] in Hv. apply bounded_canonical in Hv.
    destruct Hv as [Hc _]. unfold fexp, emin in Hc.
    destruct S; try discriminate HS; cbn [prec emax] in Hc; lia. }
  destruct f as [s|s| |s m e].
  - apply Hfin. reflexivity.
  - rewrite float_to_int_infinity by assumption. destruct s; reflexivity.
  - rewrite float_to_int_nan by assumption. reflexivity.
  - apply Hfin. reflexivity.
Qed.

Lemma raw_cast_of_float (S T : numeric_type) (f : spec_float) :
  is_float T = false ->
  raw T (catch_overflow T (cast_of_float S T f))
  = match float_to_int S T f with
    | cast_value v => v
    | negative_overflow => 0
    | positive_overflow => int_max T
    end.
Proof.
  intros HT. destruct T; try discriminate HT; cbn [cast_of_float raw];
    destruct (float_to_int S _ f); reflexivity.
Qed.

(** X5. From a [float] or a [double] the value stored in an unsigned pixel
    is the integer part of the source clamped to [0 .. max]; an infinity is
    stored as the bound on its side, and a NaN as whatever the platform
    conversion leaves. *)
Theorem float_cast_to_unsigned (T : numeric_type) (f : spec_float) :
  is_float T = false ->
  let stored :=
    match f with
    | S754_nan => nan_to_int T
    | S754_infinity s => if s then 0 else int_max T
    | _ => Z.max 0 (Z.min (int_max T) (float_trunc f))
    end in
  (valid_binary 24 128 f = true ->
   raw T (saturating_cast float_t T f) = stored) /\
  (valid_binary 53 1024 f = true ->
   raw T (saturating_cast double_t T f) = stored).
Proof.
  intros HT stored. subst stored. unfold saturating_cast.
  cbn [numeric_cast]. split; intros Hv.
  - rewrite raw_cast_of_float by exact HT.
    apply (float_to_int_stored float_t T f eq_refl Hv).
  - rewrite raw_cast_of_float by exact HT.
    apply (float_to_int_stored double_t T f eq_refl Hv).
Qed.

Lemma valid_unsigned (T : numeric_type) (v : value T) :
  is_float T = false -> (valid_value T v <-> 0 <= raw T v <= int_max T).
Proof. intros HT. destruct T; try discriminate HT; reflexivity. Qed.

Lemma saturating_cast_in_range (S T : numeric_type) (v : value S) :
  is_float T = false -> S <> double_t ->
  (S = float_t -> 0 <= nan_to_int T <= int_max T) ->
  valid_value S v -> valid_value T (saturating_cast S T v).
Proof.
  intros HT HS Hnan Hv. apply valid_unsigned; [exact HT|].
  assert (Hmax : 0 <= int_max T) by (destruct T; cbn [int_max]; lia).
  unfold saturating_cast.
  destruct S; try contradiction; cbn [numeric_cast valid_value] in *.
  1-3: rewrite cast_of_int_min by (trivial; lia); lia.
  rewrite raw_cast_of_float by exact HT.
  rewrite (float_to_int_stored float_t T v eq_refl Hv).
  specialize (Hnan eq_refl).
  destruct v as [s|s| |s m e]; try lia. destruct s; lia.
Qed.

(** X6. The plain visitor never stores a value outside the range of an
    unsigned destination: from a source whose pixels are valid for their
    type it builds a buffer whose pixels all lie in [0 .. max], provided,
    for a [float] source, that the platform conversion of a NaN does. *)
Theorem plain_visitor_pixels_in_range (S D : image_kind) (src : image S) :
  S <> D -> D <> gray32f -> valid_pixels src ->
  (S = gray32f ->
   0 <= nan_to_int (pixel_type D) <= int_max (pixel_type D)) ->
  exists r : image D,
    visitor_image_cast D (image_of S src) = Returned r /\ valid_pixels r.
Proof.
  intros Hne HD Hv Hnan. exists (plain_cast D S src).
  split; [apply visitor_image_cast_other; exact Hne|].
  unfold valid_pixels, plain_cast.
  rewrite cast_loop_data by apply image_new_wf.
  apply Forall_fmap, Forall_forall. intros i _. cbn.
  apply saturating_cast_in_range.
  - destruct D; try reflexivity. contradiction.
  - destruct S; discriminate.
  - intros HS. apply Hnan. destruct S; try discriminate HS. reflexivity.
  - apply valid_get_pixel. exact Hv.
Qed.

End Unsigned.

(** ** Narrowing a [double] to a [float] destination *)

Section ToFloat.
Local Open Scope Z_scope.

(** X7. What the rescaling visitor stores in a [float] pixel: a value
    above the largest [float], [+inf] included, becomes the largest
    [float]; a value below the least [float], [-inf] included, becomes the
    positive [2^-126] that [numeric_limits<float>::min()] names; a NaN
    stays a NaN; every other value is rounded to the nearest [float]. *)
Theorem double_cast_to_float (f : spec_float) :
  valid_binary 53 1024 f = true ->
  let bound := (2 ^ 24 - 1) * 2 ^ (104 + 1074) in
  saturating_cast double_t float_t f
  = match f with
    | S754_nan => S754_nan
    | S754_infinity s =>
        if s then S754_finite false 8388608 (-149)
        else S754_finite false 16777215 104
    | _ =>
        if scaled 1074 f <? - bound then S754_finite false 8388608 (-149)
        else if bound <? scaled 1074 f then S754_finite false 16777215 104
        else float_convert float_t f
    end.
Proof.
  intros Hv bound.
  unfold saturating_cast. cbn [numeric_cast cast_of_float].
  unfold float_to_float.
  change (prec float_t <? prec double_t) with true. cbv iota.
  set (lo := float_convert double_t (SFopp (float_max float_t))).
  set (hi := float_convert double_t (float_max float_t)).
  assert (Vlo : valid_binary 53 1024 lo = true) by reflexivity.
  assert (Vhi : valid_binary 53 1024 hi = true) by reflexivity.
  assert (Slo : scaled 1074 lo = - bound) by (vm_compute; reflexivity).
  assert (Shi : scaled 1074 hi = bound) by (vm_compute; reflexivity).
  assert (Hfin : finite_or_zero f = true ->
            catch_overflow float_t
              (if SFltb f lo then negative_overflow
               else if SFltb hi f then positive_overflow
               else cast_value (float_convert float_t f))
            = if scaled 1074 f <? - bound then S754_finite false 8388608 (-149)
              else if bound <? scaled 1074 f then S754_finite false 16777215 104
              else float_convert float_t f).
  { intros Hf.
    rewrite (SFltb_scaled 53 1024 1074 ltac:(lia) ltac:(unfold emin; lia) f lo)
      by (assumption || reflexivity).
    rewrite (SFltb_scaled 53 1024 1074 ltac:(lia) ltac:(unfold emin; lia) hi f)
      by (assumption || reflexivity).
    rewrite Slo, Shi.
    destruct (scaled 1074 f <? - bound); [reflexivity|].
    destruct (bound <? scaled 1074 f); reflexivity. }
  destruct f as [s|s| |s m e].
  - apply Hfin. reflexivity.
  - destruct s; reflexivity.
  - reflexivity.
  - apply Hfin. reflexivity.
Qed.

End ToFloat.

(** ** A requested scaling of zero *)

Lemma d_div_zero (x : double) (s0 : bool) :
  d_div x (S754_zero s0)
  = match x with
    | S754_nan | S754_zero _ => S754_nan
    | S754_infinity sx | S754_finite sx _ _ => S754_infinity (xorb sx s0)
    end.
Proof. destruct x; reflexivity. Qed.

Lemma rescale_pixel_zero_scaling (S T : numeric_type)
    (src_offset src_scaling offset : double) (s0 : bool) (v : value S) :
  is_float T = false ->
  let p := rescale_pixel S T src_offset src_scaling offset (S754_zero s0) v in
  raw T p = 0%Z \/ raw T p = int_max T \/ raw T p = nan_to_int T.
Proof.
  intros HT p. subst p. unfold rescale_pixel, rescale, saturating_cast.
  cbn [numeric_cast]. rewrite raw_cast_of_float by exact HT.
  rewrite d_div_zero.
  destruct (d_sub _ offset) as [s|s| |s m e].
  - rewrite float_to_int_nan by reflexivity. auto.
  - rewrite float_to_int_infinity by reflexivity.
    destruct (xorb s s0); auto.
  - rewrite float_to_int_nan by reflexivity. auto.
  - rewrite float_to_int_infinity by reflexivity.
    destruct (xorb s s0); auto.
Qed.

(** X8. A requested scaling of zero makes the rescaling visitor divide by
    zero in every pixel, and the conversion still succeeds: each pixel of an
    unsigned destination is 0 or the maximum of its type (the quotient is an
    infinity), or what the platform stores for a NaN (the numerator is
    zero or a NaN). *)
Theorem zero_scaling_saturates (S D : image_kind) (src : image S)
    (offset : double) (s0 : bool) :
  S <> D -> D <> gray32f ->
  exists r : image D,
    visitor_image_cast_so D offset (S754_zero s0) (image_of S src)
    = Returned r /\
    Forall (fun p => raw (pixel_type D) p = 0%Z \/
                     raw (pixel_type D) p = int_max (pixel_type D) \/
                     raw (pixel_type D) p = nan_to_int (pixel_type D))
           (pData r).
Proof.
  intros Hne HD. exists (rescaling_cast D S offset (S754_zero s0) src).
  split; [apply visitor_image_cast_so_other; exact Hne|].
  unfold rescaling_cast. rewrite cast_loop_data by apply (image_new_wf D).
  apply Forall_fmap, Forall_forall. intros i _. cbn.
  apply rescale_pixel_zero_scaling.
  destruct D; try reflexivity. contradiction.
Qed.

(** ** Outcomes of the dispatcher *)

(** X9. The dispatcher returns a buffer exactly when the source is not the
    null variant and the target names one of the four concrete kinds; the
    buffer is then of that kind, and every failure is one of the two
    runtime errors. *)
Theorem image_cast_any_outcome (data : image_any) (type : image_dtype)
    (o s : double) :
  ((exists r, image_cast_any data type o s = Returned r) <->
   data <> image_null /\ exists k, type = dtype_of_kind k) /\
  (forall k r, type = dtype_of_kind k ->
     image_cast_any data type o s = Returned r ->
     exists im : image k, r = image_of k im) /\
  (forall e, image_cast_any data type o s = Thrown e ->
     e = InvalidInput \/ e = UnknownFormat).
Proof.
  assert (Hcast : forall k,
            match data with
            | image_null => image_cast k data o s = Thrown InvalidInput
            | image_of _ _ => exists im, image_cast k data o s = Returned im
            end).
  { intros k. unfold image_cast. destruct data as [|S src].
    - destruct (identity_guard _ _ _ _); reflexivity.
    - destruct (identity_guard _ _ _ _); cbn;
        destruct (image_kind_eq_dec S k); eexists; reflexivity. }
  split; [split|split].
  - intros [r Hr]. split.
    + intros ->. destruct type; cbn in Hr; try discriminate Hr;
        match type of Hr with
        | context [image_cast ?k _ _ _] =>
            rewrite (Hcast k) in Hr; discriminate Hr
        end.
    + destruct type; try discriminate Hr;
        [exists rgba8 | exists gray8 | exists gray16 | exists gray32f];
        reflexivity.
  - intros [Hnn [k ->]]. destruct data as [|S src]; [contradiction|].
    destruct (Hcast k) as [im Him].
    exists (image_of k im). destruct k; cbn; rewrite Him; reflexivity.
  - intros k r -> Hr. destruct data as [|S src].
    + specialize (Hcast k). cbn in Hcast.
      destruct k; cbn in Hr; rewrite Hcast in Hr; discriminate Hr.
    + destruct (Hcast k) as [im Him]. exists im.
      destruct k; cbn in Hr; rewrite Him in Hr; cbn in Hr; congruence.
  - intros e He. destruct type; cbn in He;
      try (injection He as <-; auto; fail);
      match type of He with
      | context [image_cast ?k _ _ _] =>
          specialize (Hcast k); destruct data as [|S src];
          [rewrite Hcast in He; injection He as <-; auto
          |destruct Hcast as [im Him]; rewrite Him in He; discriminate He]
      end.
Qed.

(** ** Empty buffers *)

(** X10. A source of another kind with no columns or no rows is converted
    into a buffer of the same width and height with an empty grid; no pixel
    is read or written. *)
Theorem empty_source_gives_empty_grid (S D : image_kind) (src : image S)
    (offset scaling : double) :
  S <> D -> (width src = 0 \/ height src = 0)%nat ->
  visitor_image_cast D (image_of S src)
  = Returned (mk_image (width src) (height src) [] d_zero d_one) /\
  visitor_image_cast_so D offset scaling (image_of S src)
  = Returned (mk_image (width src) (height src) [] offset scaling).
Proof.
  intros Hne Hdim.
  assert (Hn : (height src * width src = 0)%nat) by nia.
  rewrite visitor_image_cast_other, visitor_image_cast_so_other by assumption.
  split; f_equal.
  - destruct (plain_cast_shape D S src) as (Hw & Hh & Ho & Hs & _).
    apply image_eta; try assumption.
    unfold plain_cast. rewrite cast_loop_data by apply image_new_wf.
    cbn [image_new width height]. rewrite Hn. reflexivity.
  - destruct (rescaling_cast_shape D S offset scaling src)
      as (Hw & Hh & Ho & Hs & _).
    apply image_eta; try assumption.
    unfold rescaling_cast. rewrite cast_loop_data by apply (image_new_wf D).
    cbn [image_new set_offset set_scaling width height]. rewrite Hn.
    reflexivity.
Qed.

(** ** Widening and coming back *)

Section RoundTrip.
Local Open Scope Z_scope.

Lemma digits_le (p : positive) (k : Z) :
  0 <= k -> Zpos p < 2 ^ k -> Zpos (digits2_pos p) <= k.
Proof.
  intros Hk Hp. pose proof (digits2_pos_bounds p) as [Hlo _].
  assert (Zpos (digits2_pos p) - 1 < k); [|lia].
  apply (Z.pow_lt_mono_r_iff 2); lia.
Qed.

(** An integer that fits the mantissa survives the way to a floating type
    and back. *)
Lemma float_of_Z_back (F T : numeric_type) (v : Z) :
  is_float F = true -> 0 <= v <= int_max T -> v < 2 ^ prec F ->
  float_to_int F T (float_of_Z F v) = cast_value v.
Proof.
  intros HF Hv Hp. destruct v as [|p|p]; try lia.
  - destruct F; try discriminate HF; destruct T; reflexivity.
  - assert (Hd : Zpos (digits2_pos p) <= prec F)
      by (apply digits_le; [destruct F; cbn [prec]; lia | exact Hp]).
    destruct (float_of_Z_exact F p Hd) as (m & e & Hf & Hb & _ & _ & Hs).
    rewrite Hf, float_to_int_scaled by (assumption || reflexivity).
    rewrite Hs.
    assert (HP : 0 < 2 ^ 1074) by (apply Z.pow_pos_nonneg; lia).
    rewrite Z.quot_mul by lia.
    generalize dependent (2 ^ 1074). intros P _ HP.
    destruct (Z.leb_spec (Zpos p * P) (- P)); [nia|].
    destruct (Z.leb_spec ((int_max T + 1) * P) (Zpos p * P)); [nia|].
    reflexivity.
Qed.

Lemma widen_back (S D : image_kind) (v : pixel S) :
  widens S D = true -> valid_value (pixel_type S) v ->
  saturating_cast (pixel_type D) (pixel_type S)
    (saturating_cast (pixel_type S) (pixel_type D) v) = v.
Proof.
  intros Hw Hv. unfold saturating_cast.
  destruct S, D; try discriminate Hw;
    cbn [pixel_type valid_value int_max] in *;
    cbn [numeric_cast cast_of_int cast_of_float catch_overflow int_max andb
         Z.ltb Z.compare Pos.compare Pos.compare_cont];
    try (rewrite float_of_Z_back by (cbn [int_max prec]; reflexivity || lia);
         reflexivity);
    match goal with
    | |- context [(?a <? ?b)] =>
        destruct (Z.ltb_spec a b); [lia | reflexivity]
    end.
Qed.

(** X11. Converting a complete buffer with valid pixels to a kind whose
    element type holds every source value, and converting the result back,
    restores the pixel grid and the dimensions exactly; the metadata come
    back as offset 0.0 and scaling 1.0, since the plain visitor does not
    carry them over. *)
Theorem widening_round_trip (S D : image_kind) (src : image S) :
  widens S D = true -> wf_image src -> valid_pixels src ->
  exists mid : image D,
    visitor_image_cast D (image_of S src) = Returned mid /\
    visitor_image_cast S (image_of D mid)
    = Returned (mk_image (width src) (height src) (pData src) d_zero d_one).
Proof.
  intros Hw Hwf Hv.
  assert (Hne : S <> D) by (intros ->; destruct D; discriminate Hw).
  exists (plain_cast D S src).
  split; [apply visitor_image_cast_other; exact Hne|].
  rewrite visitor_image_cast_other by congruence.
  destruct (plain_cast_shape D S src) as (Hw' & Hh' & _ & _ & Hwf').
  rewrite plain_cast_map by exact Hwf'.
  rewrite Hw', Hh'. do 2 f_equal.
  rewrite plain_cast_map by exact Hwf. cbn [pData].
  rewrite <- list_fmap_compose.
  rewrite <- (list_fmap_id (pData src)) at 2.
  apply Forall_fmap_ext. unfold valid_pixels in Hv.
  eapply Forall_impl; [exact Hv|]. intros v Hvv. cbn.
  apply widen_back; assumption.
Qed.

End RoundTrip.

(** ** The guard on zeros of either sign *)

Section Guard.
Local Open Scope Z_scope.

(** With scalings 1.0 and offsets that are zeros of any sign the rescaling
    formula returns its argument, up to the sign of a zero. *)
Lemma rescale_guarded (a b : bool) (v : double) :
  valid_binary 53 1024 v = true ->
  rescale (S754_zero b) d_one (S754_zero a) d_one v
  = match v with
    | S754_zero s => S754_zero (s && b && negb a)
    | _ => v
    end.
Proof.
  intros Hv. unfold rescale. destruct v as [s|s| |s m e]; cbn [valid_binary] in Hv.
  - destruct s, a, b; reflexivity.
  - destruct s, a, b; reflexivity.
  - reflexivity.
  - rewrite d_mul_one by exact Hv.
    change (d_add (S754_finite s m e) (S754_zero b)) with (S754_finite s m e).
    change (d_sub (S754_finite s m e) (S754_zero a)) with (S754_finite s m e).
    apply d_div_one. exact Hv.
Qed.

Lemma double_of_valid (S : image_kind) (v : pixel S) :
  valid_value (pixel_type S) v ->
  valid_binary 53 1024 (double_of (pixel_type S) v) = true /\
  (S <> gray32f -> double_of (pixel_type S) v <> S754_zero true).
Proof.
  intros Hv.
  assert (Hint : forall z : Z, 0 <= z <= 4294967295 ->
            valid_binary 53 1024 (float_of_Z double_t z) = true /\
            float_of_Z double_t z <> S754_zero true).
  { intros z Hz. destruct z as [|p|p]; try lia.
    - split; [reflexivity | discriminate].
    - pose proof (digits_of_uint32 p ltac:(lia)) as Hd.
      destruct (float_of_Z_exact double_t p ltac:(cbn [prec]; lia))
        as (m & e & Hf & Hb & _).
      rewrite Hf. split; [exact Hb | discriminate]. }
  destruct S; cbn [pixel_type valid_value double_of int_max] in *.
  - destruct (Hint v ltac:(lia)) as [H1 H2]. split; [exact H1 | intros _; exact H2].
  - destruct (Hint v ltac:(lia)) as [H1 H2]. split; [exact H1 | intros _; exact H2].
  - destruct (Hint v ltac:(lia)) as [H1 H2]. split; [exact H1 | intros _; exact H2].
  - split; [|intros H; contradiction].
    destruct v as [s|s| |s m e]; try reflexivity.
    destruct (float_convert_double_exact s m e Hv) as (m' & e' & Hf & Hb & _).
    rewrite Hf. exact Hb.
Qed.

Lemma rescale_pixel_guarded (S D : image_kind) (a b : bool) (v : pixel S) :
  S <> D -> valid_value (pixel_type S) v ->
  rescale_pixel (pixel_type S) (pixel_type D)
    (S754_zero b) d_one (S754_zero a) d_one v
  = saturating_cast (pixel_type S) (pixel_type D) v.
Proof.
  intros Hne Hv.
  rewrite <- (rescale_pixel_identity S D v Hne Hv).
  unfold rescale_pixel. rewrite to_double_eq.
  destruct (double_of_valid S v Hv) as [Hd Hz].
  rewrite rescale_guarded, (rescale_identity _ Hd) by exact Hd.
  destruct (double_of (pixel_type S) v) as [s| | |] eqn:E; try reflexivity.
  destruct s; [|reflexivity].
  destruct (image_kind_eq_dec S gray32f) as [HS|HS].
  - subst S. destruct D; try contradiction; destruct a, b; reflexivity.
  - exfalso. apply (Hz HS). reflexivity.
Qed.

(** X12. Whenever the guard of the entry point holds, which it also does
    on offsets that are negative zeros, the rescaling visitor it skips would
    have built the same grid with the same dimensions and scaling as the
    plain visitor it runs; the two results can differ only in the sign of a
    zero offset. *)
Theorem guard_shortcut_preserves_pixels (S D : image_kind) (src : image S)
    (offset scaling : double) :
  S <> D -> valid_pixels src ->
  identity_guard offset scaling (get_offset src) (get_scaling src) = true ->
  exists p r : image D,
    image_cast D (image_of S src) offset scaling = Returned p /\
    visitor_image_cast_so D offset scaling (image_of S src) = Returned r /\
    width r = width p /\ height r = height p /\ pData r = pData p /\
    get_scaling r = get_scaling p /\
    d_eq (get_offset r) (get_offset p) = true.
Proof.
  intros Hne Hv Hg.
  exists (plain_cast D S src), (rescaling_cast D S offset scaling src).
  split.
  { unfold image_cast. cbn [any_get_offset any_get_scaling]. rewrite Hg.
    apply visitor_image_cast_other. exact Hne. }
  split; [apply visitor_image_cast_so_other; exact Hne|].
  apply identity_guard_true in Hg. destruct Hg as (Ho & Hs & Hso & Hss).
  destruct (plain_cast_shape D S src) as (Hw1 & Hh1 & Ho1 & Hs1 & _).
  destruct (rescaling_cast_shape D S offset scaling src)
    as (Hw2 & Hh2 & Ho2 & Hs2 & _).
  split; [congruence|]. split; [congruence|]. split.
  - unfold plain_cast, rescaling_cast.
    rewrite !cast_loop_data by (apply image_new_wf || apply (image_new_wf D)).
    cbn [image_new set_offset set_scaling width height].
    apply list_fmap_ext. intros i x _.
    assert (Hp : valid_value (pixel_type S)
                   (get_pixel src (x mod width src) (x / width src)))
      by (apply valid_get_pixel; exact Hv).
    unfold get_offset, get_scaling in *. rewrite Hs, Hss.
    destruct Ho as [-> | ->], Hso as [-> | ->];
      apply rescale_pixel_guarded; assumption.
  - unfold get_offset, get_scaling. rewrite Ho1, Hs1, Ho2, Hs2.
    split; [exact Hs|]. destruct Ho as [-> | ->]; reflexivity.
Qed.

(** C10, as amended. On a source buffer with valid pixels of a kind other
    than the destination, whenever the guard of the entry point holds (the
    requested and the source offset [== 0.0], the requested and the source
    scaling [== 1.0], which zeros of either sign satisfy), the plain visitor,
    which the entry point runs, and the rescaling visitor build buffers with
    the same dimensions, the same pixels, the same scaling and offsets that
    compare equal. The two buffers are identical when the requested offset
    is [+0.0]; otherwise they differ only in the sign of the zero offset. *)
Theorem guard_changes_only_zero_sign (S D : image_kind) (src : image S)
    (offset scaling : double) :
  S <> D -> valid_pixels src ->
  identity_guard offset scaling (get_offset src) (get_scaling src) = true ->
  exists p r : image D,
    visitor_image_cast D (image_of S src) = Returned p /\
    visitor_image_cast_so D offset scaling (image_of S src) = Returned r /\
    image_cast D (image_of S src) offset scaling = Returned p /\
    width r = width p /\ height r = height p /\ pData r = pData p /\
    get_scaling r = get_scaling p /\
    d_eq (get_offset r) (get_offset p) = true /\
    (offset = d_zero -> r = p) /\
    (offset = S754_zero true ->
     get_offset p = d_zero /\ get_offset r = S754_zero true).
Proof.
  intros Hne Hv Hg.
  exists (plain_cast D S src), (rescaling_cast D S offset scaling src).
  split; [apply visitor_image_cast_other; exact Hne|].
  split; [apply visitor_image_cast_so_other; exact Hne|].
  split.
  { unfold image_cast. cbn [any_get_offset any_get_scaling]. rewrite Hg.
    apply visitor_image_cast_other. exact Hne. }
  apply identity_guard_true in Hg. destruct Hg as (Ho & Hs & Hso & Hss).
  destruct (plain_cast_shape D S src) as (Hw1 & Hh1 & Ho1 & Hs1 & _).
  destruct (rescaling_cast_shape D S offset scaling src)
    as (Hw2 & Hh2 & Ho2 & Hs2 & _).
  assert (Hpix : forall (a b : bool) x y,
            rescale_pixel (pixel_type S) (pixel_type D)
              (S754_zero b) d_one (S754_zero a) d_one (get_pixel src x y)
            = saturating_cast (pixel_type S) (pixel_type D)
                (get_pixel src x y)).
  { intros a b x y. apply rescale_pixel_guarded; [exact Hne|].
    apply valid_get_pixel. exact Hv. }
  split; [congruence|]. split; [congruence|]. split.
  { unfold plain_cast, rescaling_cast.
    rewrite !cast_loop_data by (apply image_new_wf || apply (image_new_wf D)).
    cbn [image_new set_offset set_scaling width height].
    apply list_fmap_ext. intros i x _.
    unfold get_offset, get_scaling in *. rewrite Hs, Hss.
    destruct Ho as [-> | ->], Hso as [-> | ->]; apply Hpix. }
  unfold get_offset, get_scaling in *.
  split; [rewrite Hs1, Hs2; exact Hs|].
  split; [rewrite Ho1, Ho2; destruct Ho as [-> | ->]; reflexivity|].
  split.
  - intros Hz. subst offset scaling. unfold plain_cast, rescaling_cast.
    change (set_offset d_zero
              (set_scaling d_one (image_new D (width src) (height src))))
      with (image_new D (width src) (height src)).
    apply cast_loop_ext. intros x y _ _.
    unfold get_offset, get_scaling. rewrite Hss.
    destruct Hso as [-> | ->]; apply (Hpix false).
  - intros Hz. rewrite Ho1, Ho2. split; [reflexivity | exact Hz].
Qed.

End Guard.

(** ** Integral calibration *)

Section Integral.
Local Open Scope Z_scope.

Lemma float_of_Z_pos (p : positive) :
  Zpos p < 2 ^ 53 ->
  exists m e,
    float_of_Z double_t (Zpos p) = S754_finite false m e /\
    float_of_Z double_t (Zneg p) = S754_finite true m e /\
    bounded 53 1024 m e = true /\
    - 53 < e <= 0 /\ Zpos m = Zpos p * 2 ^ (0 - e).
Proof.
  intros Hp. pose proof (digits_le p 53 ltac:(lia) Hp) as Hd.
  unfold float_of_Z. cbn [binary_normalize prec emax].
  set (E := fexp 53 1024 (Zpos (digits2_pos p) + 0)).
  assert (HE : - 53 < E <= 0 /\ E <= 1024 - 53)
    by (unfold E, fexp, emin; lia).
  destruct (binary_round_exact 53 1024 false p 0) as (m & Hr & Hm & Hb);
    fold E; try lia.
  destruct (binary_round_exact 53 1024 true p 0) as (m' & Hr' & Hm' & _);
    fold E; try lia.
  fold E in Hr, Hm, Hb, Hr', Hm'.
  assert (m' = m) by (apply Pos2Z.inj; congruence). subst m'.
  exists m, E. repeat split; try assumption; lia.
Qed.

(** The sum of two aligned mantissas, rounded at their common exponent, is
    the float of the integer sum. *)
Lemma normalize_aligned (z n ez : Z) :
  ez <= 0 -> z = n * 2 ^ (0 - ez) ->
  binary_normalize 53 1024 z ez false = float_of_Z double_t n.
Proof.
  intros Hez Hz.
  assert (Hp : 0 < 2 ^ (0 - ez)) by (apply Z.pow_pos_nonneg; lia).
  unfold float_of_Z. cbn [prec emax].
  destruct n as [|q|q].
  - subst z. reflexivity.
  - destruct z as [|p|p]; try lia. cbn [binary_normalize].
    replace ez with (0 - (0 - ez)) at 1 by lia.
    apply binary_round_shift; [lia | exact Hz].
  - destruct z as [|p|p]; try lia. cbn [binary_normalize].
    replace ez with (0 - (0 - ez)) at 1 by lia.
    apply binary_round_shift; [lia|].
    change (Zpos p) with (- Zneg p). rewrite Hz.
    change (Zpos q) with (- Zneg q). lia.
Qed.

Lemma aligned_mantissa (m : positive) (e ez n : Z) :
  ez <= e -> e <= 0 -> Zpos m = n * 2 ^ (0 - e) ->
  Zpos (fst (shl_align m e ez)) = n * 2 ^ (0 - ez).
Proof.
  intros Hez He Hm. destruct (shl_align_spec m e ez) as [H _].
  rewrite H, Z.min_r, Hm by lia.
  rewrite <- Z.mul_assoc, <- Z.pow_add_r by lia. do 2 f_equal. lia.
Qed.

Lemma d_add_of_Z (a b : Z) :
  0 <= a < 2 ^ 53 -> 0 <= b < 2 ^ 53 ->
  d_add (float_of_Z double_t a) (float_of_Z double_t b)
  = float_of_Z double_t (a + b).
Proof.
  intros Ha Hb. destruct a as [|p|p]; try lia.
  { destruct b as [|q|q]; try lia; [reflexivity|].
    destruct (float_of_Z_pos q ltac:(lia)) as (m & e & Hf & _).
    rewrite Z.add_0_l, Hf. reflexivity. }
  destruct (float_of_Z_pos p ltac:(lia)) as (ma & ea & Hfa & _ & _ & Hea & Hma).
  destruct b as [|q|q]; try lia.
  { rewrite Z.add_0_r, Hfa. reflexivity. }
  destruct (float_of_Z_pos q ltac:(lia)) as (mb & eb & Hfb & _ & _ & Heb & Hmb).
  rewrite Hfa, Hfb. unfold d_add. cbn [SFadd cond_Zopp].
  apply normalize_aligned; [lia|].
  rewrite (aligned_mantissa ma ea _ (Zpos p)) by lia.
  rewrite (aligned_mantissa mb eb _ (Zpos q)) by lia.
  lia.
Qed.

Lemma d_sub_of_Z (a b : Z) :
  0 <= a < 2 ^ 53 -> 0 <= b < 2 ^ 53 ->
  d_sub (float_of_Z double_t a) (float_of_Z double_t b)
  = float_of_Z double_t (a - b).
Proof.
  intros Ha Hb. destruct a as [|p|p]; try lia.
  { destruct b as [|q|q]; try lia; [reflexivity|].
    destruct (float_of_Z_pos q ltac:(lia)) as (m & e & Hf & Hn & _).
    change (0 - Zpos q) with (Zneg q). rewrite Hf, Hn. reflexivity. }
  destruct (float_of_Z_pos p ltac:(lia)) as (ma & ea & Hfa & _ & _ & Hea & Hma).
  destruct b as [|q|q]; try lia.
  { rewrite Z.sub_0_r, Hfa. reflexivity. }
  destruct (float_of_Z_pos q ltac:(lia)) as (mb & eb & Hfb & _ & _ & Heb & Hmb).
  rewrite Hfa, Hfb. unfold d_sub. cbn [SFsub cond_Zopp].
  apply normalize_aligned; [lia|].
  rewrite (aligned_mantissa ma ea _ (Zpos p)) by lia.
  rewrite (aligned_mantissa mb eb _ (Zpos q)) by lia.
  lia.
Qed.

Lemma d_mul_of_Z (a b : Z) :
  0 <= a < 2 ^ 53 -> 0 <= b < 2 ^ 53 -> a * b < 2 ^ 53 ->
  d_mul (float_of_Z double_t a) (float_of_Z double_t b)
  = float_of_Z double_t (a * b).
Proof.
  intros Ha Hb Hab. destruct a as [|p|p]; try lia.
  { destruct b as [|q|q]; try lia; [reflexivity|].
    destruct (float_of_Z_pos q ltac:(nia)) as (m & e & Hf & _).
    rewrite Hf. reflexivity. }
  destruct b as [|q|q]; try lia.
  { destruct (float_of_Z_pos p ltac:(nia)) as (m & e & Hf & _).
    rewrite Z.mul_0_r, Hf. reflexivity. }
  destruct (float_of_Z_pos p ltac:(nia))
    as (ma & ea & Hfa & _ & Hba & Hea & Hma).
  destruct (float_of_Z_pos q ltac:(nia))
    as (mb & eb & Hfb & _ & Hbb & Heb & Hmb).
  destruct (float_of_Z_pos (p * q) ltac:(lia))
    as (mc & ec & Hfc & _ & Hbc & Hec & Hmc).
  rewrite Hfa, Hfb. change (Zpos p * Zpos q) with (Zpos (p * q)). rewrite Hfc.
  unfold d_mul. cbn [SFmul xorb].
  pose proof (bounded_canonical _ _ _ _ Hba) as [Hca _].
  pose proof (bounded_canonical _ _ _ _ Hbb) as [Hcb _].
  pose proof (bounded_canonical _ _ _ _ Hbc) as [Hcc _].
  pose proof (digits2_pos_bounds ma) as [Hla _].
  pose proof (digits2_pos_bounds mb) as [Hlb _].
  pose proof (digits2_pos_bounds mc) as [_ Hhc].
  unfold fexp, emin in Hca, Hcb, Hcc.
  assert (Hda : Zpos (digits2_pos ma) = 53) by lia.
  assert (Hdb : Zpos (digits2_pos mb) = 53) by lia.
  assert (Hdc : Zpos (digits2_pos mc) <= 53) by lia.
  rewrite Hda in Hla. rewrite Hdb in Hlb.
  assert (Hmc53 : Zpos mc < 2 ^ 53).
  { eapply Z.lt_le_trans; [exact Hhc|]. apply Z.pow_le_mono_r; lia. }
  (* the product mantissa is that of the result shifted left *)
  assert (Hk : 0 <= ec - (ea + eb)).
  { destruct (Z_lt_le_dec (ec - (ea + eb)) 0) as [Hneg|]; [|assumption].
    exfalso.
    assert (H1 : Zpos ma * Zpos mb * 2 ^ (0 - ec)
                 = Zpos mc * 2 ^ (0 - ea) * 2 ^ (0 - eb)).
    { rewrite Hma, Hmb, Hmc, Pos2Z.inj_mul. ring. }
    assert (H2 : 2 ^ (0 - ea) * 2 ^ (0 - eb) = 2 ^ ((0 - ea) + (0 - eb)))
      by (rewrite Z.pow_add_r by lia; reflexivity).
    assert (H3 : 2 ^ ((0 - ea) + (0 - eb)) <= 2 ^ (0 - ec))
      by (apply Z.pow_le_mono_r; lia).
    assert (H4 : 0 < 2 ^ (0 - ec)) by (apply Z.pow_pos_nonneg; lia).
    assert (H5 : 2 ^ 104 = 2 ^ 52 * 2 ^ 52) by reflexivity.
    assert (H6 : 2 ^ 52 * 2 ^ 52 <= Zpos ma * Zpos mb) by nia.
    assert (H7 : Zpos ma * Zpos mb * 2 ^ (0 - ec)
                 <= Zpos mc * 2 ^ (0 - ec)).
    { rewrite H1, <- Z.mul_assoc, H2. nia. }
    nia. }
  assert (Hprod : Zpos (ma * mb) = Zpos mc * 2 ^ (ec - (ea + eb))).
  { rewrite Pos2Z.inj_mul.
    apply (Z.mul_reg_r _ _ (2 ^ (0 - ec)));
      [apply Z.pow_nonzero; lia|].
    rewrite <- (Z.mul_assoc (Zpos mc)), <- Z.pow_add_r by lia.
    replace (ec - (ea + eb) + (0 - ec)) with ((0 - ea) + (0 - eb)) by lia.
    rewrite Z.pow_add_r by lia.
    rewrite Hma, Hmb, Hmc, Pos2Z.inj_mul. ring. }
  rewrite Hprod. remember (ec - (ea + eb)) as j eqn:Hj.
  replace (ea + eb) with (ec - j) by lia.
  rewrite binary_round_aux_shift;
    [| lia | lia | cbn [Zdigits2]; unfold fexp, emin; lia].
  apply binary_round_aux_canonical. exact Hbc.
Qed.

Lemma float_trunc_of_Z (n : Z) :
  - 2 ^ 53 < n < 2 ^ 53 ->
  valid_binary 53 1024 (float_of_Z double_t n) = true /\
  finite_or_zero (float_of_Z double_t n) = true /\
  float_trunc (float_of_Z double_t n) = n.
Proof.
  intros Hn.
  assert (HP : 0 < 2 ^ 1074) by (apply Z.pow_pos_nonneg; lia).
  destruct n as [|p|p].
  - repeat split.
  - destruct (float_of_Z_pos p ltac:(lia)) as (m & e & Hf & _ & Hb & He & Hm).
    rewrite Hf. split; [exact Hb|]. split; [reflexivity|].
    pose proof (bounded_canonical _ _ _ _ Hb) as [Hc _].
    unfold fexp, emin in Hc.
    rewrite (float_trunc_scaled 1074) by (cbn; lia).
    rewrite (scaled_exact false p m 0 e 1074) by lia.
    cbn [scaled cond_Zopp]. rewrite Z.add_0_l, Z.quot_mul by lia.
    reflexivity.
  - destruct (float_of_Z_pos p ltac:(lia)) as (m & e & _ & Hf & Hb & He & Hm).
    rewrite Hf. split; [exact Hb|]. split; [reflexivity|].
    pose proof (bounded_canonical _ _ _ _ Hb) as [Hc _].
    unfold fexp, emin in Hc.
    rewrite (float_trunc_scaled 1074) by (cbn; lia).
    rewrite (scaled_exact true p m 0 e 1074) by lia.
    cbn [scaled cond_Zopp]. rewrite Z.add_0_l.
    rewrite <- Z.mul_opp_l, Z.quot_mul by lia. reflexivity.
Qed.

Lemma d_div_one_of_Z (n : Z) :
  - 2 ^ 53 < n < 2 ^ 53 ->
  d_div (float_of_Z double_t n) d_one = float_of_Z double_t n.
Proof.
  intros Hn. destruct n as [|p|p].
  - reflexivity.
  - destruct (float_of_Z_pos p ltac:(lia)) as (m & e & Hf & _ & Hb & _).
    rewrite Hf. apply d_div_one. exact Hb.
  - destruct (float_of_Z_pos p ltac:(lia)) as (m & e & _ & Hf & Hb & _).
    rewrite Hf. apply d_div_one. exact Hb.
Qed.

(** Requantizing an unsigned value under integral calibration. *)
Lemma rescale_pixel_integral (S T : numeric_type) (c k t : Z) (v : value S) :
  is_float S = false -> is_float T = false -> valid_value S v ->
  0 <= c -> 0 <= k -> 0 <= t < 2 ^ 53 -> k * int_max S + c < 2 ^ 53 ->
  raw T (rescale_pixel S T (float_of_Z double_t c) (float_of_Z double_t k)
           (float_of_Z double_t t) d_one v)
  = Z.max 0 (Z.min (int_max T) (k * raw S v + c - t)).
Proof.
  intros HS HT Hv Hc Hk Ht Hb.
  assert (Hr : 0 <= raw S v <= int_max S)
    by (apply valid_unsigned; assumption).
  assert (Hd : to_double S v = float_of_Z double_t (raw S v)).
  { rewrite to_double_eq. destruct S; try discriminate HS; reflexivity. }
  unfold rescale_pixel, rescale. rewrite Hd.
  assert (Hmax : 255 <= int_max S <= 4294967295)
    by (destruct S; cbn [int_max]; lia).
  assert (Hvk : 0 <= raw S v * k <= k * int_max S) by nia.
  assert (Hk' : k <= k * int_max S) by nia.
  rewrite d_mul_of_Z by lia.
  rewrite d_add_of_Z by lia.
  rewrite d_sub_of_Z by lia.
  rewrite d_div_one_of_Z by lia.
  destruct (float_trunc_of_Z (raw S v * k + c - t) ltac:(lia))
    as (Hval & Hfin & Htr).
  unfold saturating_cast. cbn [numeric_cast].
  rewrite raw_cast_of_float by exact HT.
  rewrite (float_to_int_stored double_t T _ eq_refl Hval).
  destruct (float_of_Z double_t (raw S v * k + c - t)) eqn:E;
    try discriminate Hfin; rewrite Htr; f_equal; f_equal; lia.
Qed.

(** X13. With integral calibration the rescaling visitor is exact: for an
    unsigned source whose offset and scaling are non-negative integers [c]
    and [k], a requested offset that is a non-negative integer [t] and a
    requested scaling 1.0, every pixel of an unsigned destination is
    [k * v + c - t] clamped to [0 .. max], with no rounding, as long as the
    values stay below [2^53]. *)
Theorem integral_calibration_is_exact (S D : image_kind) (src : image S)
    (c k t : Z) :
  S <> D -> S <> gray32f -> D <> gray32f -> valid_pixels src ->
  get_offset src = float_of_Z double_t c ->
  get_scaling src = float_of_Z double_t k ->
  0 <= c -> 0 <= k -> 0 <= t < 2 ^ 53 ->
  k * int_max (pixel_type S) + c < 2 ^ 53 ->
  exists r : image D,
    visitor_image_cast_so D (float_of_Z double_t t) d_one (image_of S src)
    = Returned r /\
    forall x y, (x < width src)%nat -> (y < height src)%nat ->
      raw (pixel_type D) (get_pixel r x y)
      = Z.max 0 (Z.min (int_max (pixel_type D))
                   (k * raw (pixel_type S) (get_pixel src x y) + c - t)).
Proof.
  intros Hne HS HD Hv Ho Hs Hc Hk Ht Hb.
  exists (rescaling_cast D S (float_of_Z double_t t) d_one src).
  split; [apply visitor_image_cast_so_other; exact Hne|].
  intros x y Hx Hy. rewrite rescaling_cast_pixel by assumption.
  rewrite Ho, Hs. apply rescale_pixel_integral; try assumption.
  - destruct S; try reflexivity. contradiction.
  - destruct D; try reflexivity. contradiction.
  - apply valid_get_pixel. exact Hv.
Qed.

End Integral.

(** ** NaN calibration *)

Lemma rescale_nan (src_offset src_scaling offset scaling v : double) :
  src_offset = S754_nan \/ src_scaling = S754_nan \/
  offset = S754_nan \/ scaling = S754_nan ->
  rescale src_offset src_scaling offset scaling v = S754_nan.
Proof.
  assert (Hmul : forall x, d_mul x S754_nan = S754_nan)
    by (intros x; destruct x; reflexivity).
  assert (Haddl : forall x, d_add S754_nan x = S754_nan) by reflexivity.
  assert (Haddr : forall x, d_add x S754_nan = S754_nan)
    by (intros x; destruct x; reflexivity).
  assert (Hsubl : forall x, d_sub S754_nan x = S754_nan) by reflexivity.
  assert (Hsubr : forall x, d_sub x S754_nan = S754_nan)
    by (intros x; destruct x; reflexivity).
  assert (Hdivl : forall x, d_div S754_nan x = S754_nan) by reflexivity.
  assert (Hdivr : forall x, d_div x S754_nan = S754_nan)
    by (intros x; destruct x; reflexivity).
  unfold rescale. intros [-> | [-> | [-> | ->]]].
  - rewrite Haddr, Hsubl, Hdivl. reflexivity.
  - rewrite Hmul, Haddl, Hsubl, Hdivl. reflexivity.
  - rewrite Hsubr, Hdivl. reflexivity.
  - rewrite Hdivr. reflexivity.
Qed.

(** X14. A NaN in any of the four calibration values (the offset or scaling
    of the source, or the requested ones) reaches every pixel: the
    rescaling visitor still returns a buffer, and each pixel is what the
    cast of a NaN stores, a NaN in a [float] destination and the value of
    the platform conversion in an unsigned one. *)
Theorem nan_calibration_reaches_every_pixel (S D : image_kind)
    (src : image S) (offset scaling : double) :
  S <> D ->
  get_offset src = S754_nan \/ get_scaling src = S754_nan \/
  offset = S754_nan \/ scaling = S754_nan ->
  exists r : image D,
    visitor_image_cast_so D offset scaling (image_of S src) = Returned r /\
    Forall (fun p => p = saturating_cast double_t (pixel_type D) S754_nan)
           (pData r) /\
    saturating_cast double_t (pixel_type D) S754_nan
    = match D return pixel D with
      | gray32f => S754_nan
      | rgba8 => nan_to_int uint32_t
      | gray8 => nan_to_int uint8_t
      | gray16 => nan_to_int uint16_t
      end.
Proof.
  intros Hne Hnan. exists (rescaling_cast D S offset scaling src).
  split; [apply visitor_image_cast_so_other; exact Hne|].
  split; [|destruct D; reflexivity].
  unfold rescaling_cast. rewrite cast_loop_data by apply (image_new_wf D).
  apply Forall_fmap, Forall_forall. intros i _. cbn.
  unfold rescale_pixel. rewrite rescale_nan by exact Hnan. reflexivity.
Qed.

(** ** Casting to the kind already held *)

(** X15. Through the dispatcher, a cast to the kind the buffer already has
    returns the buffer unchanged, whatever offset and scaling are requested
    and whatever metadata the buffer carries: no rescaling is ever applied
    on that path. *)
Theorem dispatcher_same_kind_is_identity (k : image_kind) (im : image k)
    (offset scaling : double) :
  image_cast_any (image_of k im) (dtype_of_kind k) offset scaling
  = Returned (image_of k im) /\
  image_cast_concrete k k im offset scaling = Returned im.
Proof.
  assert (H : image_cast k (image_of k im) offset scaling = Returned im).
  { unfold image_cast. destruct (identity_guard _ _ _ _).
    - apply visitor_image_cast_same.
    - apply visitor_image_cast_so_same. }
  split.
  - destruct k; cbn [image_cast_any dtype_of_kind]; rewrite H; reflexivity.
  - exact H.
Qed.

End Platform.

(** * Instances on concrete buffers *)

Lemma rescaling_visitor_requantizes_witness :
  gray16 <> gray8 /\
  exists dst : image gray8,
    visitor_image_cast_so nan_to_zero gray8 d_zero d_one
      (image_of gray16
         (@mk_image gray16 2 1 [100%Z; 300%Z] d_zero (float_of_Z double_t 2)))
    = Returned dst /\
    get_pixel dst 0 0 = 200%Z /\ get_pixel dst 1 0 = 255%Z.
Proof.
  split; [discriminate|].
  destruct (rescaling_visitor_requantizes nan_to_zero gray16 gray8
              (@mk_image gray16 2 1 [100%Z; 300%Z] d_zero (float_of_Z double_t 2))
              d_zero d_one ltac:(discriminate))
    as (dst & Hdst & _ & _ & Hpix).
  exists dst. split; [exact Hdst|].
  split; [rewrite (Hpix 0%nat 0%nat) | rewrite (Hpix 1%nat 0%nat)];
    simpl; try lia; vm_compute; reflexivity.
Defined.

Lemma rgba8_word_cast_as_integer_witness :
  gray8 <> rgba8 /\
  exists dst : image gray8,
    visitor_image_cast nan_to_zero gray8
      (image_of rgba8 (@mk_image rgba8 1 1 [4278190335%Z] d_zero d_one))
    = Returned dst /\
    get_pixel dst 0 0 = 255%Z.
Proof.
  split; [discriminate|].
  destruct (rgba8_word_cast_as_integer nan_to_zero gray8
              (@mk_image rgba8 1 1 [4278190335%Z] d_zero d_one)
              d_zero d_one ltac:(discriminate))
    as [(dst & Hdst & Hpix) _].
  exists dst. split; [exact Hdst|].
  rewrite (Hpix 0%nat 0%nat); simpl; try lia. reflexivity.
Defined.

Lemma plain_and_rescaling_visitors_agree_witness :
  let src := @mk_image gray32f 2 2
               [S754_finite false 9846784 (-15); S754_finite true 8388608 (-22);
                S754_nan; S754_infinity false] d_zero d_one in
  gray32f <> gray8 /\ valid_pixels src /\
  get_offset src = d_zero /\ get_scaling src = d_one /\
  visitor_image_cast nan_to_zero gray8 (image_of gray32f src)
  = Returned (@mk_image gray8 2 2 [255%Z; 0%Z; 0%Z; 255%Z] d_zero d_one) /\
  visitor_image_cast_so nan_to_zero gray8 d_zero d_one (image_of gray32f src)
  = Returned (@mk_image gray8 2 2 [255%Z; 0%Z; 0%Z; 255%Z] d_zero d_one).
Proof.
  intros src.
  assert (Hne : gray32f <> gray8) by discriminate.
  assert (Hv : valid_pixels src) by (repeat constructor).
  destruct (plain_and_rescaling_visitors_agree nan_to_zero gray32f gray8 src
              Hne Hv eq_refl eq_refl) as [H _].
  split; [exact Hne|]. split; [exact Hv|].
  split; [reflexivity|]. split; [reflexivity|].
  split; [reflexivity|].
  rewrite <- H. reflexivity.
Defined.

(** C9, as stated, fails on the rescaling visitor: the rgba8 word 100
    requantized with scaling 2.0 gives the gray8 pixel 50, while the
    saturating cast of the word itself is 100. *)
Lemma rgba8_rescaled_is_not_word_cast :
  ~ (forall (D : image_kind) (src : image rgba8) (offset scaling : double)
            (dst : image D) (x y : nat),
       D <> rgba8 ->
       visitor_image_cast_so nan_to_zero D offset scaling (image_of rgba8 src)
       = Returned dst ->
       (x < width src)%nat -> (y < height src)%nat ->
       get_pixel dst x y
       = saturating_cast nan_to_zero uint32_t (pixel_type D) (get_pixel src x y)).
Proof.
  intros H.
  specialize (H gray8 (@mk_image rgba8 1 1 [100%Z] d_zero d_one)
                d_zero (float_of_Z double_t 2)
                (@mk_image gray8 1 1 [50%Z] d_zero (float_of_Z double_t 2))
                0%nat 0%nat ltac:(discriminate) eq_refl
                ltac:(simpl; lia) ltac:(simpl; lia)).
  vm_compute in H. discriminate H.
Qed.

(** * Instances of the further properties *)

Lemma plain_visitor_maps_pixels_witness :
  let src := @mk_image gray16 2 1 [100%Z; 70000%Z] d_one d_zero in
  gray16 <> gray8 /\ wf_image src /\
  visitor_image_cast nan_to_zero gray8 (image_of gray16 src)
  = Returned (@mk_image gray8 2 1 [100%Z; 255%Z] d_zero d_one).
Proof.
  intros src. split; [discriminate|]. split; [reflexivity|].
  rewrite (plain_visitor_maps_pixels nan_to_zero gray16 gray8 src
             ltac:(discriminate) eq_refl).
  reflexivity.
Defined.

Lemma rescaling_visitor_maps_pixels_witness :
  let src := @mk_image gray16 2 1 [100%Z; 300%Z] d_zero
               (float_of_Z double_t 2) in
  gray16 <> gray8 /\ wf_image src /\
  visitor_image_cast_so nan_to_zero gray8 d_zero d_one (image_of gray16 src)
  = Returned (@mk_image gray8 2 1 [200%Z; 255%Z] d_zero d_one).
Proof.
  intros src. split; [discriminate|]. split; [reflexivity|].
  rewrite (rescaling_visitor_maps_pixels nan_to_zero gray16 gray8 src
             d_zero d_one ltac:(discriminate) eq_refl).
  vm_compute. reflexivity.
Defined.

Lemma cast_loop_ignores_initial_contents_witness :
  let src := @mk_image gray8 2 1 [7%Z; 9%Z] d_zero d_one in
  length [1%Z; 2%Z] = (1 * 2)%nat /\ length [0%Z; 0%Z] = (1 * 2)%nat /\
  cast_loop (T0 := gray16) (T1 := gray8) (fun v => v) src
    (@mk_image gray16 2 1 [1%Z; 2%Z] d_zero d_one)
  = cast_loop (T0 := gray16) (T1 := gray8) (fun v => v) src
      (@mk_image gray16 2 1 [0%Z; 0%Z] d_zero d_one).
Proof.
  intros src. split; [reflexivity|]. split; [reflexivity|].
  apply (cast_loop_ignores_initial_contents (T0 := gray16) (T1 := gray8)
           (fun v => v) src 2 1 d_zero d_one [1%Z; 2%Z] [0%Z; 0%Z]);
    reflexivity.
Defined.

Lemma unsigned_cast_is_min_witness :
  is_float uint16_t = false /\ is_float uint8_t = false /\
  valid_value uint16_t 300%Z /\
  raw uint8_t (saturating_cast nan_to_zero uint16_t uint8_t 300%Z)
  = Z.min 300 255.
Proof.
  split; [reflexivity|]. split; [reflexivity|].
  assert (Hv : valid_value uint16_t 300%Z) by (cbn; lia).
  split; [exact Hv|].
  exact (unsigned_cast_is_min nan_to_zero uint16_t uint8_t 300%Z
           eq_refl eq_refl Hv).
Defined.

Lemma float_cast_to_unsigned_witness :
  is_float uint8_t = false /\
  valid_binary 24 128 (S754_finite true 12582912 (-23)) = true /\
  raw uint8_t (saturating_cast nan_to_zero float_t uint8_t
                 (S754_finite true 12582912 (-23)))
  = 0%Z.
Proof.
  split; [reflexivity|]. split; [reflexivity|].
  destruct (float_cast_to_unsigned nan_to_zero uint8_t
              (S754_finite true 12582912 (-23)) eq_refl) as [H _].
  rewrite (H eq_refl). reflexivity.
Defined.

Lemma plain_visitor_pixels_in_range_witness :
  let src := @mk_image gray32f 2 1
               [S754_finite false 9846784 (-15); S754_nan] d_zero d_one in
  gray32f <> gray8 /\ gray8 <> gray32f /\ valid_pixels src /\
  (0 <= nan_to_zero uint8_t <= int_max uint8_t)%Z /\
  exists r : image gray8,
    visitor_image_cast nan_to_zero gray8 (image_of gray32f src) = Returned r /\
    valid_pixels r.
Proof.
  intros src.
  assert (Hv : valid_pixels src) by (repeat constructor).
  assert (Hn : (0 <= nan_to_zero uint8_t <= int_max uint8_t)%Z)
    by (unfold nan_to_zero, int_max; lia).
  split; [discriminate|]. split; [discriminate|].
  split; [exact Hv|]. split; [exact Hn|].
  apply (plain_visitor_pixels_in_range nan_to_zero gray32f gray8 src);
    [discriminate | discriminate | exact Hv | intros _; exact Hn].
Defined.

Lemma double_cast_to_float_witness :
  valid_binary 53 1024 (S754_infinity true) = true /\
  saturating_cast nan_to_zero double_t float_t (S754_infinity true)
  = S754_finite false 8388608 (-149).
Proof.
  split; [reflexivity|].
  rewrite (double_cast_to_float nan_to_zero (S754_infinity true) eq_refl).
  reflexivity.
Defined.

Lemma zero_scaling_saturates_witness :
  let src := @mk_image gray16 2 1 [0%Z; 5%Z] d_zero d_one in
  gray16 <> gray8 /\ gray8 <> gray32f /\
  exists r : image gray8,
    visitor_image_cast_so nan_to_zero gray8 d_zero (S754_zero false)
      (image_of gray16 src) = Returned r /\
    Forall (fun p => raw uint8_t p = 0%Z \/ raw uint8_t p = 255%Z \/
                     raw uint8_t p = nan_to_zero uint8_t) (pData r).
Proof.
  intros src. split; [discriminate|]. split; [discriminate|].
  apply (zero_scaling_saturates nan_to_zero gray16 gray8 src d_zero false);
    discriminate.
Defined.

Lemma empty_source_gives_empty_grid_witness :
  let src := @mk_image gray16 0 3 [] d_zero d_one in
  gray16 <> gray8 /\ (width src = 0 \/ height src = 0)%nat /\
  visitor_image_cast nan_to_zero gray8 (image_of gray16 src)
  = Returned (@mk_image gray8 0 3 [] d_zero d_one).
Proof.
  intros src. split; [discriminate|]. split; [left; reflexivity|].
  apply (empty_source_gives_empty_grid nan_to_zero gray16 gray8 src
           d_zero d_one); [discriminate | left; reflexivity].
Defined.

Lemma widening_round_trip_witness :
  let src := @mk_image gray16 2 1 [65535%Z; 12%Z] d_zero d_one in
  widens gray16 gray32f = true /\ wf_image src /\ valid_pixels src /\
  exists mid : image gray32f,
    visitor_image_cast nan_to_zero gray32f (image_of gray16 src)
    = Returned mid /\
    visitor_image_cast nan_to_zero gray16 (image_of gray32f mid)
    = Returned src.
Proof.
  intros src.
  assert (Hv : valid_pixels src) by (repeat constructor; cbn; lia).
  split; [reflexivity|]. split; [reflexivity|]. split; [exact Hv|].
  apply (widening_round_trip nan_to_zero gray16 gray32f src eq_refl eq_refl Hv).
Defined.

Lemma guard_shortcut_preserves_pixels_witness :
  let src := @mk_image gray16 2 1 [300%Z; 12%Z] (S754_zero true) d_one in
  gray16 <> gray8 /\ valid_pixels src /\
  identity_guard (S754_zero true) d_one (get_offset src) (get_scaling src)
  = true /\
  exists p r : image gray8,
    image_cast nan_to_zero gray8 (image_of gray16 src) (S754_zero true) d_one
    = Returned p /\
    visitor_image_cast_so nan_to_zero gray8 (S754_zero true) d_one
      (image_of gray16 src) = Returned r /\
    width r = width p /\ height r = height p /\ pData r = pData p /\
    get_scaling r = get_scaling p /\
    d_eq (get_offset r) (get_offset p) = true.
Proof.
  intros src.
  assert (Hv : valid_pixels src) by (repeat constructor; cbn; lia).
  split; [discriminate|]. split; [exact Hv|]. split; [reflexivity|].
  apply (guard_shortcut_preserves_pixels nan_to_zero gray16 gray8 src
           (S754_zero true) d_one); [discriminate | exact Hv | reflexivity].
Defined.

Lemma integral_calibration_is_exact_witness :
  let src := @mk_image gray16 2 1 [100%Z; 300%Z]
               (float_of_Z double_t 10) (float_of_Z double_t 2) in
  gray16 <> gray8 /\ gray16 <> gray32f /\ gray8 <> gray32f /\
  valid_pixels src /\
  (0 <= 10 /\ 0 <= 2 /\ 0 <= 5 < 2 ^ 53 /\
   2 * int_max uint16_t + 10 < 2 ^ 53)%Z /\
  exists r : image gray8,
    visitor_image_cast_so nan_to_zero gray8 (float_of_Z double_t 5) d_one
      (image_of gray16 src) = Returned r /\
    raw uint8_t (get_pixel r 0 0) = 205%Z /\
    raw uint8_t (get_pixel r 1 0) = 255%Z.
Proof.
  intros src.
  assert (Hv : valid_pixels src) by (repeat constructor; cbn; lia).
  split; [discriminate|]. split; [discriminate|]. split; [discriminate|].
  split; [exact Hv|]. split; [cbn; lia|].
  destruct (integral_calibration_is_exact nan_to_zero gray16 gray8 src 10 2 5)
    as (r & Hr & Hp);
    try discriminate; try reflexivity; try exact Hv; try (cbn; lia).
  exists r. split; [exact Hr|].
  split; [apply (Hp 0%nat 0%nat) | apply (Hp 1%nat 0%nat)]; cbn; lia.
Defined.

Lemma nan_calibration_reaches_every_pixel_witness :
  let src := @mk_image gray16 2 1 [100%Z; 300%Z] d_zero d_one in
  gray16 <> gray32f /\
  exists r : image gray32f,
    visitor_image_cast_so nan_to_zero gray32f S754_nan d_one
      (image_of gray16 src) = Returned r /\
    Forall (fun p => p = S754_nan) (pData r).
Proof.
  intros src. split; [discriminate|].
  destruct (nan_calibration_reaches_every_pixel nan_to_zero gray16 gray32f
              src S754_nan d_one ltac:(discriminate)
              ltac:(right; right; left; reflexivity))
    as (r & Hr & Hall & Hnan).
  exists r. split; [exact Hr|].
  rewrite Hnan in Hall. exact Hall.
Defined.

(** * C10 on a negative zero *)

Lemma guard_changes_only_zero_sign_witness :
  let src := @mk_image gray16 2 1 [300%Z; 12%Z] d_zero d_one in
  gray16 <> gray8 /\ valid_pixels src /\
  identity_guard (S754_zero true) d_one (get_offset src) (get_scaling src)
  = true /\
  exists p r : image gray8,
    visitor_image_cast nan_to_zero gray8 (image_of gray16 src) = Returned p /\
    visitor_image_cast_so nan_to_zero gray8 (S754_zero true) d_one
      (image_of gray16 src) = Returned r /\
    pData r = pData p /\
    get_offset p = d_zero /\ get_offset r = S754_zero true.
Proof.
  intros src.
  assert (Hv : valid_pixels src) by (repeat constructor; cbn; lia).
  split; [discriminate|]. split; [exact Hv|]. split; [reflexivity|].
  destruct (guard_changes_only_zero_sign nan_to_zero gray16 gray8 src
              (S754_zero true) d_one ltac:(discriminate) Hv eq_refl)
    as (p & r & Hp & Hr & _ & _ & _ & Hd & _ & _ & _ & Hz).
  exists p, r. destruct (Hz eq_refl) as [Hop Hor].
  repeat split; assumption.
Defined.

(** C10, as stated, fails on a requested offset of [-0.0]: the guard holds,
    since [-0.0 == 0.0], and the plain visitor returns a buffer with offset
    [+0.0] where the rescaling visitor returns one with offset [-0.0]. *)
Lemma guard_true_outputs_can_differ :
  ~ (forall (S D : image_kind) (src : image S) (offset scaling : double),
       S <> D -> valid_pixels src ->
       identity_guard offset scaling (get_offset src) (get_scaling src) = true ->
       visitor_image_cast nan_to_zero D (image_of S src)
       = visitor_image_cast_so nan_to_zero D offset scaling (image_of S src)).
Proof.
  intros H.
  assert (Hv : valid_pixels (@mk_image gray16 1 1 [300%Z] d_zero d_one))
    by (repeat constructor; cbn; lia).
  specialize (H gray16 gray8 (@mk_image gray16 1 1 [300%Z] d_zero d_one)
                (S754_zero true) d_one ltac:(discriminate) Hv eq_refl).
  vm_compute in H. discriminate H.
Qed.
